(** * house-mapper: the listing-to-map rendering pipeline

A shallow embedding of the two map components of the repository:
- [src/components/HouseMap.vue], the nested-shape variant, which reads
  the coordinate embedded in each listing (module [Nested]);
- the older flat-shape variant, which geocodes a free-text address
  through the Google Geocoding API (module [Flat]).

JavaScript strings are modelled as [string], a sequence of code units
below 256; every character the code names is ASCII.  Numbers that the
code only compares and copies (latitude, longitude) are binary64
[float]s.  The mapping SDK and the geocoding service are external: they
are oracles of a [World], and what the component asks of them is
recorded in the component state. *)

From Stdlib Require Import String Ascii List Bool Arith Lia.
From Stdlib Require Import DecimalString.
From Stdlib Require Import Floats.PrimFloat.
From Stdlib Require Import Permutation.
Import ListNotations.

Open Scope string_scope.
Open Scope bool_scope.

(** ** JavaScript string primitives *)

Module Js.

Definition backslash : ascii := ascii_of_nat 92.
Definition squote : ascii := ascii_of_nat 39.
Definition dquote : ascii := ascii_of_nat 34.
Definition backtick : ascii := ascii_of_nat 96.
Definition newline : ascii := ascii_of_nat 10.
Definition creturn : ascii := ascii_of_nat 13.
Definition lt_sign : ascii := ascii_of_nat 60.
Definition gt_sign : ascii := ascii_of_nat 62.

Definition str1 (c : ascii) : string := String c EmptyString.

(** [!s] is false exactly for the non-empty string. *)
Definition truthy_str (s : string) : bool :=
  match s with
  | EmptyString => false
  | String _ _ => true
  end.

(** Truthiness of a number: [0], [-0] and [NaN] are falsy. *)
Definition truthy_num (x : float) : bool :=
  negb (PrimFloat.eqb x 0%float) && PrimFloat.eqb x x.

Definition truthy_numfield (f : option float) : bool :=
  match f with
  | Some x => truthy_num x
  | None => false
  end.

(** [s.replace(/c/g, rep)] for a pattern that is the one character [c]
    and a replacement without [$]. *)
Fixpoint replace_char (c : ascii) (rep : string) (s : string) : string :=
  match s with
  | EmptyString => EmptyString
  | String a rest =>
      if Ascii.eqb a c
      then rep ++ replace_char c rep rest
      else String a (replace_char c rep rest)
  end.

(** Template-literal rendering of a non-negative integer. *)
Definition nat_to_string (n : nat) : string :=
  NilEmpty.string_of_uint (Nat.to_uint n).

Definition code (c : ascii) : nat := nat_of_ascii c.

Definition in_range (lo hi : nat) (c : ascii) : bool :=
  ((lo <=? code c) && (code c <=? hi))%nat.

(** The word characters of [\b] and [\w]: [A-Za-z0-9_]. *)
Definition is_word (c : ascii) : bool :=
  in_range 65 90 c || in_range 97 122 c || in_range 48 57 c
  || (code c =? 95)%nat.

(** Canonicalization of the [i] flag (no [u] flag), as far as a comparison
    with an ASCII character goes: upper-casing moves [a-z] to [A-Z] and
    no other ASCII character, and a code unit of 128 or more never becomes
    an ASCII one, so it is left as it is here.  The keys of the table are
    ASCII. *)
Definition canonicalize (c : ascii) : ascii :=
  if in_range 97 122 c then ascii_of_nat (code c - 32) else c.

Definition eq_ci (a b : ascii) : bool :=
  Ascii.eqb (canonicalize a) (canonicalize b).

(** White space removed by [trim], among the code units below 256:
    TAB, LF, VT, FF, CR, SPACE and NBSP. *)
Definition is_space (c : ascii) : bool :=
  in_range 9 13 c || (code c =? 32)%nat || (code c =? 160)%nat.

Fixpoint trim_start (s : string) : string :=
  match s with
  | EmptyString => EmptyString
  | String c rest => if is_space c then trim_start rest else s
  end.

Fixpoint trim_end (s : string) : string :=
  match s with
  | EmptyString => EmptyString
  | String c rest =>
      match trim_end rest with
      | EmptyString => if is_space c then EmptyString else str1 c
      | t => String c t
      end
  end.

Definition trim (s : string) : string := trim_end (trim_start s).

(** Whether the next character of [s] is a word character; past the end
    of the input there is none. *)
Definition next_is_word (s : string) : bool :=
  match s with
  | EmptyString => false
  | String c _ => is_word c
  end.

(** [pat] matches, ignoring case, at the start of [s]: the result is
    whether the last character passed over is a word character ([prev]
    when there is none) and what follows the match. *)
Fixpoint match_ci (pat : string) (prev : bool) (s : string)
  : option (bool * string) :=
  match pat with
  | EmptyString => Some (prev, s)
  | String p pat' =>
      match s with
      | EmptyString => None
      | String c s' =>
          if eq_ci p c then match_ci pat' (is_word c) s' else None
      end
  end.

(** The regular expression [\bKEY\b] at the current position: [prev]
    tells whether the character before it is a word character. *)
Definition match_bounded (key : string) (prev : bool) (s : string)
  : option string :=
  if xorb prev (next_is_word s) then
    match match_ci key prev s with
    | Some (last, rest) =>
        if xorb last (next_is_word rest) then Some rest else None
    | None => None
    end
  else None.

(** [s.replace(new RegExp(`\\b${key}\\b`, 'gi'), value)] for a non-empty
    [key] of literal characters: the scan goes left to right; at a match
    the value is emitted and the scan resumes after the matched text
    ([skip] counts the matched characters still to pass over). *)
Fixpoint replace_scan (key value : string) (prev : bool) (skip : nat)
  (s : string) : string :=
  match s with
  | EmptyString => EmptyString
  | String c rest =>
      match skip with
      | S k => replace_scan key value (is_word c) k rest
      | O =>
          match match_bounded key prev s with
          | Some _ =>
              value ++ replace_scan key value (is_word c)
                         (String.length key - 1) rest
          | None => String c (replace_scan key value (is_word c) 0 rest)
          end
      end
  end.

Definition replace_word (key value s : string) : string :=
  replace_scan key value false 0 s.

End Js.

(** ** Escaping of the description (HouseMap.vue, [escapeHtml]) *)

(** A backslash followed by [c]. *)
Definition escaped (c : ascii) : string := String Js.backslash (Js.str1 c).

Definition escapeHtml (str : string) : string :=
  if negb (Js.truthy_str str) then "No description available"
  else
    let s1 := Js.replace_char Js.backslash (escaped Js.backslash) str in
    let s2 := Js.replace_char Js.squote (escaped Js.squote) s1 in
    let s3 := Js.replace_char Js.dquote (escaped Js.dquote) s2 in
    let s4 := Js.replace_char Js.backtick (escaped Js.backtick) s3 in
    let s5 := Js.replace_char Js.newline " " s4 in
    let s6 := Js.replace_char Js.creturn "" s5 in
    let s7 := Js.replace_char Js.lt_sign (Js.str1 Js.lt_sign) s6 in
    Js.replace_char Js.gt_sign (Js.str1 Js.gt_sign) s7.

(** ** Address normalizer (flat variant, [normalizeAddress]) *)

(** The replacement table, in the order [Object.entries] lists it (no key
    is an array index, so the order is that of the literal). *)
Definition replacements : list (string * string) :=
  [ ("Rd", "Road");
    ("Ln", "Lane");
    ("Dr", "Drive");
    ("St", "Street");
    ("Ave", "Avenue");
    ("Blvd", "Boulevard");
    ("Hwy", "Highway");
    ("CR", "County Road");
    ("Vz CR", "Vz County Road");
    ("Us Highway", "US Hwy");
    ("#", "") ].

Definition apply_replacements (table : list (string * string)) (s : string)
  : string :=
  fold_left (fun normalized kv => Js.replace_word (fst kv) (snd kv) normalized)
            table s.

Definition normalizeAddress (address : string) : string :=
  if negb (Js.truthy_str address) then address
  else apply_replacements replacements (Js.trim address).

(** ** What both components share: SDK objects, state, placement *)

Module Component.

(** A [{ lat, lng }] literal. *)
Record Coord := { lat : float; lng : float }.

(** An [AdvancedMarkerElement] with the glyph of its [PinElement]. *)
Record Marker := { glyph : string; position : Coord; title : string }.

(** An entry of [skippedHouses]: [{ mlsId, address }] in the flat
    variant, [{ zpid, address }] in the nested one. *)
Record SkipRecord := { key : string; address : string }.

(** What the geocoding request resolves to: the promise rejects, the body
    has no [results] array to read, or it has one. *)
Inductive GeoResponse :=
| Rejected
| Malformed
| Results (rs : list Coord).

(** How the [try] block of one placement ends: an exception before
    [markers.push] (pin or marker construction), an exception after it
    (popup content, info window, listener, bounds), or none. *)
Inductive PlaceOutcome :=
| MarkerThrows
| ListenerThrows
| Placed.

(** The collaborators: the geocoding service, asked with the number of
    requests already sent and the address; the mapping SDK, asked per
    listing key. *)
Record World := {
  geocode : nat -> string -> GeoResponse;
  construct : string -> PlaceOutcome
}.

(** The options object of [new google.maps.Map(mapElement, { ... })]: a
    map instance is modelled by the options it was built with. *)
Record MapOptions := {
  center : Coord;
  zoom : nat;
  mapId : string;
  mapTypeId : option string;
  mapTypeControl : option bool
}.

(** The refs of the component ([error], [skippedHouses], [successCount]),
    its [markers] array and its [googleMap] variable ([null] until
    [initMap] has built the map), the [bounds] of the running pass, and
    the calls made to the outside: geocoding [requests] and [fitBounds]
    calls. *)
Record State := {
  error : string;
  skippedHouses : list SkipRecord;
  successCount : nat;
  markers : list Marker;
  googleMap : option MapOptions;
  bounds : list Coord;
  requests : list string;
  fitted : list (list Coord)
}.

(** The state a freshly set-up component starts from. *)
Definition setup : State :=
  {| error := ""; skippedHouses := []; successCount := 0; markers := [];
     googleMap := None; bounds := []; requests := []; fitted := [] |}.

(** [googleMap = new google.maps.Map(...)] *)
Definition set_map (m : MapOptions) (st : State) : State :=
  {| error := error st; skippedHouses := skippedHouses st;
     successCount := successCount st; markers := markers st;
     googleMap := Some m; bounds := bounds st; requests := requests st;
     fitted := fitted st |}.

Definition set_error (msg : string) (st : State) : State :=
  {| error := msg; skippedHouses := skippedHouses st;
     successCount := successCount st; markers := markers st;
     googleMap := googleMap st; bounds := bounds st;
     requests := requests st; fitted := fitted st |}.

Definition push_skip (r : SkipRecord) (st : State) : State :=
  {| error := error st; skippedHouses := skippedHouses st ++ [r];
     successCount := successCount st; markers := markers st;
     googleMap := googleMap st; bounds := bounds st;
     requests := requests st; fitted := fitted st |}.

Definition push_marker (m : Marker) (st : State) : State :=
  {| error := error st; skippedHouses := skippedHouses st;
     successCount := successCount st; markers := markers st ++ [m];
     googleMap := googleMap st; bounds := bounds st;
     requests := requests st; fitted := fitted st |}.

Definition push_request (a : string) (st : State) : State :=
  {| error := error st; skippedHouses := skippedHouses st;
     successCount := successCount st; markers := markers st;
     googleMap := googleMap st; bounds := bounds st;
     requests := requests st ++ [a]; fitted := fitted st |}.

(** [bounds.extend(coords); successCount.value++] *)
Definition count_success (c : Coord) (st : State) : State :=
  {| error := error st; skippedHouses := skippedHouses st;
     successCount := S (successCount st); markers := markers st;
     googleMap := googleMap st; bounds := bounds st ++ [c];
     requests := requests st; fitted := fitted st |}.

(** [let bounds = new google.maps.LatLngBounds();
    successCount.value = 0; skippedHouses.value = []] *)
Definition reset (st : State) : State :=
  {| error := error st; skippedHouses := []; successCount := 0;
     markers := markers st; googleMap := googleMap st; bounds := [];
     requests := requests st; fitted := fitted st |}.

(** [googleMap.fitBounds(bounds, { padding: 50 })] inside its [try].
    With a map the call is made; an exception it throws is logged and
    changes nothing.  Without one [googleMap] is [null]: reading
    [fitBounds] off it throws before anything is called, and the [catch]
    logs. *)
Definition fit (st : State) : State :=
  match googleMap st with
  | Some _ =>
      {| error := error st; skippedHouses := skippedHouses st;
         successCount := successCount st; markers := markers st;
         googleMap := googleMap st; bounds := bounds st;
         requests := requests st; fitted := fitted st ++ [bounds st] |}
  | None => st
  end.

(** The [try] block of the loop body: pin, marker, [markers.push], popup,
    listener, [bounds.extend], [successCount++]; the [catch] only logs. *)
Definition place (w : World) (k : string) (coords : Coord) (ttl : string)
  (st : State) : State :=
  let marker :=
    {| glyph := Js.nat_to_string (successCount st + 1);
       position := coords; title := ttl |} in
  match construct w k with
  | MarkerThrows => st
  | ListenerThrows => push_marker marker st
  | Placed => count_success coords (push_marker marker st)
  end.

(** Two states with the same aggregate. *)
Definition same_aggregate (a b : State) : Prop :=
  successCount a = successCount b /\ skippedHouses a = skippedHouses b.


(** The end of a pass over at least one listing. *)
Definition finish (nothing : string) (st : State) : State :=
  if (0 <? successCount st)%nat then fit st else set_error nothing st.

End Component.

(** ** The flat variant: one free-text address per listing, geocoded *)

Module Flat.
Import Component.

(** A listing; of its fields the pass reads [address] for the lookup and
    the title (the others only fill the popup text). *)
Record House := { h_address : option string }.

(** The options [initMap] builds the map with: the centre of the US, no
    map type. *)
#[warnings="-inexact-float"]
Definition mapOptions : MapOptions :=
  {| center := {| lat := 39.8283%float; lng := (-98.5795)%float |};
     zoom := 4; mapId := "ZILLOW_MAP"; mapTypeId := None;
     mapTypeControl := None |}.

(** [geocodeAddress]: one request with the normalized address; the first
    result's location, or [null] when there is none or anything throws. *)
Definition geocodeAddress (w : World) (addr : string) (st : State)
  : option Coord * State :=
  let normalizedAddress := normalizeAddress addr in
  let st' := push_request normalizedAddress st in
  match geocode w (List.length (requests st)) normalizedAddress with
  | Results (c :: _) => (Some c, st')
  | Results [] => (None, st')
  | Malformed => (None, st')
  | Rejected => (None, st')
  end.

(** The body of [for (const [mlsId, house] of houseEntries)]. *)
Definition step (w : World) (st : State) (entry : string * House) : State :=
  let (mlsId, house) := entry in
  match h_address house with
  | Some a =>
      if Js.truthy_str a then
        match geocodeAddress w a st with
        | (Some coords, st1) => place w mlsId coords a st1
        | (None, st1) => push_skip {| key := mlsId; address := a |} st1
        end
      else push_skip {| key := mlsId; address := "No address" |} st
  | None => push_skip {| key := mlsId; address := "No address" |} st
  end.

Definition loop (w : World) (houseEntries : list (string * House))
  (st : State) : State :=
  fold_left (step w) houseEntries st.

(** The addresses of the listings that have a truthy [address], in the
    order of the pass. *)
Definition usable_addresses (houseEntries : list (string * House))
  : list string :=
  flat_map (fun entry =>
              match h_address (snd entry) with
              | Some a => if Js.truthy_str a then [a] else []
              | None => []
              end) houseEntries.

(** [addHousesToMap] over [houseEntries = Object.entries(props.houses)]. *)
Definition addHousesToMap (w : World) (houseEntries : list (string * House))
  (st : State) : State :=
  match houseEntries with
  | [] => set_error "No houses provided. Please check the data source." st
  | _ :: _ =>
      finish "No houses could be geocoded and displayed on the map."
             (loop w houseEntries (reset st))
  end.

End Flat.

(** ** The nested variant: structured address, embedded coordinate *)

Module Nested.
Import Component.

Record Address := {
  streetAddress : option string;
  city : option string;
  state : option string;
  zipcode : option string
}.

(** [houseData.property]. *)
Record Property := {
  p_address : option Address;
  latitude : option float;
  longitude : option float;
  description : option string
}.

Record HouseData := { property : option Property }.

(** The options [initMap] builds the map with: the centre of Texas, the
    map type [google.maps.MapTypeId.ROADMAP], which the SDK defines as
    the string "roadmap", and no map type control of the SDK's own. *)
#[warnings="-inexact-float"]
Definition mapOptions : MapOptions :=
  {| center := {| lat := 31.9686%float; lng := (-99.9018)%float |};
     zoom := 6; mapId := "ZILLOW_MAP"; mapTypeId := Some "roadmap";
     mapTypeControl := Some false |}.

(** The four components, when each of them is truthy:
    [house?.address?.streetAddress && house.address.city && ...]. *)
Definition address_parts (house : option Property)
  : option (string * string * string * string) :=
  match house with
  | Some h =>
      match p_address h with
      | Some a =>
          match streetAddress a, city a, state a, zipcode a with
          | Some s, Some c, Some t, Some z =>
              if Js.truthy_str s && Js.truthy_str c && Js.truthy_str t
                 && Js.truthy_str z
              then Some (s, c, t, z) else None
          | _, _, _, _ => None
          end
      | None => None
      end
  | None => None
  end.

(** [`${streetAddress}, ${city}, ${state} ${zipcode}`] *)
Definition fullAddress (parts : string * string * string * string)
  : string :=
  let '(s, c, t, z) := parts in
  s ++ ", " ++ c ++ ", " ++ t ++ " " ++ z.

(** [if (house.latitude && house.longitude) coords = { lat, lng }] *)
Definition embedded_coords (h : Property) : option Coord :=
  match latitude h, longitude h with
  | Some la, Some lo =>
      if Js.truthy_num la && Js.truthy_num lo
      then Some {| lat := la; lng := lo |} else None
  | _, _ => None
  end.


(** The body of [for (const [zpid, houseData] of houseEntries)]. *)
Definition step (w : World) (st : State) (entry : string * HouseData)
  : State :=
  let (zpid, houseData) := entry in
  match address_parts (property houseData), property houseData with
  | Some parts, Some house =>
      match embedded_coords house with
      | Some coords => place w zpid coords (fullAddress parts) st
      | None =>
          push_skip {| key := zpid; address := fullAddress parts |} st
      end
  | _, _ =>
      push_skip {| key := zpid; address := "Invalid or missing address" |} st
  end.

Definition loop (w : World) (houseEntries : list (string * HouseData))
  (st : State) : State :=
  fold_left (step w) houseEntries st.

(** [addHousesToMap] over [houseEntries = Object.entries(props.houses)]. *)
Definition addHousesToMap (w : World)
  (houseEntries : list (string * HouseData)) (st : State) : State :=
  match houseEntries with
  | [] => set_error "No houses provided. Please check the data source." st
  | _ :: _ =>
      finish "No houses could be displayed on the map."
             (loop w houseEntries (reset st))
  end.

End Nested.

(** ** Vocabulary of the properties *)

(** The eight replacements of [escapeHtml], as one function of the
    string. *)
Definition escape_passes (s : string) : string :=
  Js.replace_char Js.gt_sign (Js.str1 Js.gt_sign)
   (Js.replace_char Js.lt_sign (Js.str1 Js.lt_sign)
    (Js.replace_char Js.creturn ""
     (Js.replace_char Js.newline " "
      (Js.replace_char Js.backtick (escaped Js.backtick)
       (Js.replace_char Js.dquote (escaped Js.dquote)
        (Js.replace_char Js.squote (escaped Js.squote)
         (Js.replace_char Js.backslash (escaped Js.backslash) s))))))).

(** A character of [s] for which [bad] holds and that no backslash
    escapes: the scan reads a backslash together with the character
    after it. *)
Fixpoint unescaped (bad : ascii -> bool) (s : string) : bool :=
  match s with
  | EmptyString => false
  | String c rest =>
      if Ascii.eqb c Js.backslash then
        match rest with
        | EmptyString => true
        | String _ rest' => unescaped bad rest'
        end
      else bad c || unescaped bad rest
  end.

Definition is_quote (c : ascii) : bool :=
  Ascii.eqb c Js.squote || Ascii.eqb c Js.dquote || Ascii.eqb c Js.backtick.

Definition is_line_break (c : ascii) : bool :=
  Ascii.eqb c Js.newline || Ascii.eqb c Js.creturn.

Definition is_angle (c : ascii) : bool :=
  Ascii.eqb c Js.lt_sign || Ascii.eqb c Js.gt_sign.

(** Words and gaps: an address read as its maximal runs of word characters
    and the text between them. *)
Module Words.

Inductive token :=
| Word (w : string)
| Gap (g : string).

Definition text (t : token) : string :=
  match t with
  | Word w => w
  | Gap g => g
  end.

Fixpoint render (ts : list token) : string :=
  match ts with
  | [] => EmptyString
  | t :: ts' => text t ++ render ts'
  end.

Fixpoint tokenize (s : string) : list token :=
  match s with
  | EmptyString => []
  | String c rest =>
      match tokenize rest with
      | Word w :: ts =>
          if Js.is_word c then Word (String c w) :: ts
          else Gap (Js.str1 c) :: Word w :: ts
      | Gap g :: ts =>
          if Js.is_word c then Word (Js.str1 c) :: Gap g :: ts
          else Gap (String c g) :: ts
      | [] => [if Js.is_word c then Word (Js.str1 c) else Gap (Js.str1 c)]
      end
  end.

(** Equality of two strings up to the case of their letters. *)
Fixpoint eq_ci_str (a b : string) : bool :=
  match a, b with
  | EmptyString, EmptyString => true
  | String x a', String y b' => Js.eq_ci x y && eq_ci_str a' b'
  | _, _ => false
  end.

(** The entries of the table whose key is one word: the first eight. *)
Definition word_entries : list (string * string) := firstn 8 replacements.

(** A word that is a key of [word_entries], whatever its case, becomes
    the expansion of that key; any other word, and any gap, stays. *)
Definition expand (t : token) : list token :=
  match t with
  | Word w =>
      match find (fun kv => eq_ci_str (fst kv) w) word_entries with
      | Some kv => tokenize (snd kv)
      | None => [t]
      end
  | Gap _ => [t]
  end.

(** The word [a], one space and the word [b], whatever their case,
    become the tokens [vt]; the scan goes left to right. *)
Fixpoint join_words (a b : string) (vt : list token) (ts : list token)
  : list token :=
  match ts with
  | [] => []
  | t :: ts' =>
      match t, ts' with
      | Word x, Gap g :: Word y :: rest =>
          if eq_ci_str a x && String.eqb g " " && eq_ci_str b y
          then vt ++ join_words a b vt rest
          else t :: join_words a b vt ts'
      | _, _ => t :: join_words a b vt ts'
      end
  end.

(** A key of two words: the word [a], one space, the word [b]. *)
Definition two_words (a b : string) : string := a ++ String " " b.

(** The entry ["Us Highway" -> "US Hwy"] on words. *)
Definition us_highway (ts : list token) : list token :=
  join_words "Us" "Highway" (tokenize "US Hwy") ts.

(** The address with each whole word of the table expanded, and then
    "Us Highway" shortened. *)
Definition expand_words (address : string) : string :=
  render (us_highway (flat_map expand (tokenize (Js.trim address)))).

(** Whether the last character of [s] is a word character; [prev] when
    [s] is empty. *)
Fixpoint last_is_word (prev : bool) (s : string) : bool :=
  match s with
  | EmptyString => prev
  | String c rest => last_is_word (Js.is_word c) rest
  end.

Fixpoint all_chars (p : ascii -> bool) (s : string) : bool :=
  match s with
  | EmptyString => true
  | String c rest => p c && all_chars p rest
  end.

Definition hash_free (s : string) : bool :=
  all_chars (fun c => negb (Ascii.eqb c "#")) s.

Definition non_word (c : ascii) : bool := negb (Js.is_word c).

Definition head_sat (p : ascii -> bool) (s : string) : bool :=
  match s with
  | EmptyString => false
  | String c _ => p c
  end.

(** Well-formed token lists: words are non-empty runs of word
    characters, gaps non-empty runs of other characters, and the two
    alternate. *)
Definition is_word_token (t : token) : bool :=
  match t with
  | Word _ => true
  | Gap _ => false
  end.

Definition token_ok (t : token) : bool :=
  match t with
  | Word w => Js.truthy_str w && all_chars Js.is_word w
  | Gap g => Js.truthy_str g && all_chars non_word g
  end.

Definition starts_with_word (ts : list token) : bool :=
  match ts with
  | t :: _ => is_word_token t
  | [] => false
  end.

Definition starts_with_gap (ts : list token) : bool :=
  match ts with
  | t :: _ => negb (is_word_token t)
  | [] => false
  end.

Fixpoint valid (ts : list token) : bool :=
  match ts with
  | [] => true
  | t :: ts' =>
      token_ok t
      && negb (if is_word_token t then starts_with_word ts'
               else starts_with_gap ts')
      && valid ts'
  end.

Fixpoint ends_with_word (ts : list token) : bool :=
  match ts with
  | [] => false
  | [t] => is_word_token t
  | _ :: ts' => ends_with_word ts'
  end.

(** No word of [ts] is [b], up to case. *)
Definition no_word (b : string) (ts : list token) : bool :=
  forallb (fun t => match t with
                    | Word y => negb (eq_ci_str b y)
                    | Gap _ => true
                    end) ts.

(** No token of [ts] holds a [#]. *)
Definition clean (ts : list token) : bool :=
  forallb (fun t => hash_free (text t)) ts.

(** An entry whose key is one word and whose value starts and ends with
    a word. *)
Definition word_entry (kv : string * string) : bool :=
  Js.truthy_str (fst kv) && all_chars Js.is_word (fst kv)
  && valid (tokenize (snd kv))
  && starts_with_word (tokenize (snd kv))
  && ends_with_word (tokenize (snd kv)).

(** One pass for a one-word key: the words equal to [k] up to case
    become the tokens [vt]. *)
Definition sub1 (k : string) (vt : list token) (t : token) : list token :=
  match t with
  | Word w => if eq_ci_str k w then vt else [t]
  | Gap _ => [t]
  end.

(** The passes of one-word entries, one after the other, on tokens. *)
Definition expand_passes (entries : list (string * string))
  (ts : list token) : list token :=
  fold_left (fun acc kv => flat_map (sub1 (fst kv) (tokenize (snd kv))) acc)
            entries ts.

End Words.

(** ** Sample worlds and listings *)

Module Samples.
Import Component.

Definition houston : Coord := {| lat := 30%float; lng := (-95)%float |}.

(** An SDK that never throws, and one that fails to build the marker of
    listing ["h1"]. *)
Definition sdk_ok (k : string) : PlaceOutcome := Placed.

Definition sdk_fails_h1 (k : string) : PlaceOutcome :=
  if String.eqb k "h1" then MarkerThrows else Placed.


Definition geo_ok (n : nat) (a : string) : GeoResponse := Results [houston].

Definition world_ok : World :=
  {| geocode := geo_ok; construct := sdk_ok |}.

Definition world_h1_throws : World :=
  {| geocode := geo_ok; construct := sdk_fails_h1 |}.

Definition sdk_listener_fails_h1 (k : string) : PlaceOutcome :=
  if String.eqb k "h1" then ListenerThrows else Placed.

Definition world_h1_listener_throws : World :=
  {| geocode := geo_ok; construct := sdk_listener_fails_h1 |}.


Definition flat_house (a : string) : Flat.House :=
  {| Flat.h_address := Some a |}.

Definition full_address : Nested.Address :=
  {| Nested.streetAddress := Some "12 Main St";
     Nested.city := Some "Houston";
     Nested.state := Some "TX";
     Nested.zipcode := Some "77001" |}.

Definition no_zip_address : Nested.Address :=
  {| Nested.streetAddress := Some "12 Main St";
     Nested.city := Some "Houston";
     Nested.state := Some "TX";
     Nested.zipcode := None |}.

Definition nested_house (a : Nested.Address) (la lo : option float)
  : Nested.HouseData :=
  {| Nested.property :=
       Some {| Nested.p_address := Some a;
               Nested.latitude := la;
               Nested.longitude := lo;
               Nested.description := None |} |}.

Definition house_ok : Nested.HouseData :=
  nested_house full_address (Some 30%float) (Some (-95)%float).

Definition house_no_coords : Nested.HouseData :=
  nested_house full_address None None.

Definition house_equator : Nested.HouseData :=
  nested_house full_address (Some 0%float) (Some (-95)%float).

Definition house_no_zip : Nested.HouseData :=
  nested_house no_zip_address (Some 30%float) (Some (-95)%float).

Definition house_equator_no_zip : Nested.HouseData :=
  nested_house no_zip_address (Some 0%float) (Some (-95)%float).

(** A component that has been set up and whose [initMap] has built the
    map of the nested variant. *)
Definition with_map : State := set_map Nested.mapOptions setup.

End Samples.

(** ** The hash entry of the table *)

(** The text without each [#] that stands between two word characters:
    [prev] tells whether the character before is a word character. *)
Fixpoint strip_hash (prev : bool) (s : string) : string :=
  match s with
  | EmptyString => EmptyString
  | String c rest =>
      if Ascii.eqb c "#" && prev && Js.next_is_word rest
      then strip_hash false rest
      else String c (strip_hash (Js.is_word c) rest)
  end.

(** The characters [escapeHtml] changes or removes. *)
Definition escape_sensitive (c : ascii) : bool :=
  Ascii.eqb c Js.backslash || is_quote c || is_line_break c.

(** ** Resolution of one nested listing *)

Module Resolution.
Import Component.

(** What the loop body decides before the placement: the skip record, or
    the coordinate and the title of the marker to build. *)
Definition resolve (entry : string * Nested.HouseData)
  : SkipRecord + (Coord * string) :=
  let (zpid, houseData) := entry in
  match Nested.address_parts (Nested.property houseData),
        Nested.property houseData with
  | Some parts, Some house =>
      match Nested.embedded_coords house with
      | Some coords => inr (coords, Nested.fullAddress parts)
      | None => inl {| key := zpid; address := Nested.fullAddress parts |}
      end
  | _, _ => inl {| key := zpid; address := "Invalid or missing address" |}
  end.

Definition skip_of (entry : string * Nested.HouseData) : list SkipRecord :=
  match resolve entry with
  | inl r => [r]
  | inr _ => []
  end.

Definition is_placed (o : PlaceOutcome) : bool :=
  match o with
  | Placed => true
  | _ => false
  end.

(** The coordinate of a listing that resolves and whose placement goes
    through. *)
Definition placed_at (w : World) (entry : string * Nested.HouseData)
  : list Coord :=
  match resolve entry with
  | inr (coords, _) => if is_placed (construct w (fst entry)) then [coords]
                       else []
  | inl _ => []
  end.

(** The flat listings without a truthy address, as their skip records. *)
Definition unaddressed (houseEntries : list (string * Flat.House))
  : list SkipRecord :=
  flat_map (fun entry =>
              match Flat.h_address (snd entry) with
              | Some a => if Js.truthy_str a then []
                          else [ {| key := fst entry;
                                    address := "No address" |} ]
              | None => [ {| key := fst entry; address := "No address" |} ]
              end) houseEntries.

End Resolution.

(** ** The books of a pass *)

Module Accounts.
Import Component.

(** After [n] listings of a pass that started with the markers [m0]:
    each listing is counted, skipped or lost in a placement that threw;
    the bounds hold one coordinate per success; the markers only grew, by
    one per placement that got as far as [markers.push]. *)
Definition tally (m0 : list Marker) (n : nat) (s : State) : Prop :=
  successCount s + List.length (skippedHouses s) <= n
  /\ List.length (bounds s) = successCount s
  /\ exists ms,
      markers s = (m0 ++ ms)%list
      /\ successCount s <= List.length ms
      /\ List.length ms + List.length (skippedHouses s) <= n.

(** No listing is lost: each of the [n] is counted or skipped. *)
Definition settled (n : nat) (s : State) : Prop :=
  successCount s + List.length (skippedHouses s) = n.

(** The markers added since [m0] are as many as the successes. *)
Definition tight (m0 : list Marker) (s : State) : Prop :=
  exists ms, markers s = (m0 ++ ms)%list /\ List.length ms = successCount s.

End Accounts.

(** ** The description toggle of a popup ([window.toggleDescription]) *)

Module Toggle.

(** What the function reads and writes: [desc.style.display], and the
    [textContent] and [aria-expanded] of the button. *)
Record Popup := {
  display : string;
  textContent : string;
  ariaExpanded : string
}.

(** The popup as the info window content builds it. *)
Definition built : Popup :=
  {| display := "none"; textContent := "View Details";
     ariaExpanded := "false" |}.

Definition toggleDescription (p : Popup) : Popup :=
  let isExpanded := String.eqb (display p) "none" in
  {| display := if isExpanded then "block" else "none";
     textContent := if isExpanded then "Hide Details" else "View Details";
     ariaExpanded := if isExpanded then "true" else "false" |}.

End Toggle.

(** ** Life cycle of the component: set-up, [initMap], [onMounted] *)

Module Lifecycle.
Import Component.

(** How [loadGoogleMapsApi] ends: the SDK is there already, the injected
    script loads, the script fails, or neither event ever comes. *)
Inductive SdkLoad :=
| AlreadyLoaded
| ScriptLoads
| ScriptFails
| NeverSettles.

(** Whether the promise of [loadGoogleMapsApi] settles. *)
Definition settles (l : SdkLoad) : bool :=
  match l with
  | NeverSettles => false
  | _ => true
  end.

(** The page: the API key of the build, the SDK, whether [#map] exists,
    and whether the map constructor throws. *)
Record Page := {
  apiKey : option string;
  sdk : SdkLoad;
  mapElement : bool;
  mapConstructorThrows : bool
}.

(** The component: the state of the pass and the ref [mapLoaded]. *)
Record Session := {
  st : State;
  mapLoaded : bool
}.

Definition with_state (s' : State) (s : Session) : Session :=
  {| st := s'; mapLoaded := mapLoaded s |}.

Definition with_error (msg : string) (s : Session) : Session :=
  with_state (set_error msg (st s)) s.

Definition has_key (p : Page) : bool :=
  match apiKey p with
  | Some k => Js.truthy_str k
  | None => false
  end.

(** The body of [<script setup>]: the refs, and the message when the key
    is missing. *)
Definition created (p : Page) : Session :=
  let s := {| st := setup; mapLoaded := false |} in
  if has_key p then s
  else with_error
         "Map configuration error: Missing API key. Please contact support."
         s.

(** [initMap], for the [options] the variant builds its map with
    ([Nested.mapOptions], [Flat.mapOptions]). *)
Definition initMap (options : MapOptions) (p : Page) (s : Session)
  : Session :=
  if negb (mapElement p) then
    with_error "Map container not found. Please check the page structure." s
  else if mapConstructorThrows p then
    with_error
      "Failed to initialize map. Please check API key and billing settings."
      s
  else
    {| st := set_map options (st s); mapLoaded := true |}.

(** [onMounted], for the map [options] and the pass [addHousesToMap] of
    either variant.  When the script fails, its [onerror] rejects and
    sets a first message; the rejection then reaches the [catch], which
    sets the message that stays. *)
Definition onMounted (options : MapOptions) (pass : State -> State)
  (p : Page) (s : Session) : Session :=
  if negb (has_key p) then s
  else
    match sdk p with
    | NeverSettles => s
    | ScriptFails =>
        with_error
          ("Failed to load map: " ++ "Failed to load Google Maps API"
           ++ ". Please try again later.")
          (with_error
             "Failed to load Google Maps API. Please check network or API key."
             s)
    | AlreadyLoaded | ScriptLoads =>
        let s1 := initMap options p s in
        with_state (pass (st s1)) s1
    end.

(** The component after set-up and mount. *)
Definition mounted (options : MapOptions) (pass : State -> State)
  (p : Page) : Session :=
  onMounted options pass p (created p).

(** The banners of the template. *)
Definition shows_loading (s : Session) : bool :=
  negb (mapLoaded s) && negb (Js.truthy_str (error (st s))).

Definition shows_error (s : Session) : bool := Js.truthy_str (error (st s)).

Definition shows_warning (s : Session) : bool :=
  (0 <? List.length (skippedHouses (st s)))%nat.

Definition shows_success (s : Session) : bool :=
  (0 <? successCount (st s))%nat.

End Lifecycle.

(** ** The application shell (App.vue) *)

Module App.

(** What [response.json()] gives: an exception with its message, or the
    parsed houses (as the entries of the object). *)
Inductive Body :=
| Unparsable (message : string)
| Parsed (houses : list (string * Nested.HouseData)).

(** How [fetch('/data/saved_houses.json')] ends: it rejects, or it gives
    a response with its [status], its [ok] flag and its body. *)
Inductive FetchOutcome :=
| Rejects (message : string)
| Responds (status : nat) (ok : bool) (body : Body).

Record Shell := {
  houseData : list (string * Nested.HouseData);
  fetchError : string
}.

(** [houseData = ref({})], [fetchError = ref('')]. *)
Definition created : Shell := {| houseData := []; fetchError := "" |}.

Definition fail (message : string) (a : Shell) : Shell :=
  {| houseData := houseData a;
     fetchError := "Failed to load house data: " ++ message |}.

Definition onMounted (f : FetchOutcome) (a : Shell) : Shell :=
  match f with
  | Rejects message => fail message a
  | Responds status ok body =>
      if negb ok then
        fail ("Failed to fetch houses: " ++ Js.nat_to_string status) a
      else
        match body with
        | Unparsable message => fail message a
        | Parsed houses =>
            {| houseData := houses; fetchError := fetchError a |}
        end
  end.

(** The template shows the message when there is one, the map
    otherwise. *)
Definition shows_map (a : Shell) : bool :=
  negb (Js.truthy_str (fetchError a)).

End App.

(** ** Vocabulary for the normal forms *)

Module NormalForm.
Import Words.

(** Whether [ts] starts with the word [a], one space and the word [b]. *)
Definition triple (a b : string) (ts : list token) : bool :=
  match ts with
  | Word x :: Gap g :: Word y :: _ =>
      eq_ci_str a x && String.eqb g " " && eq_ci_str b y
  | _ => false
  end.

(** Whether the last token, when it is a gap, ends without white space. *)
Definition token_trail_ok (t : token) : bool :=
  match t with
  | Word _ => true
  | Gap g => String.eqb (Js.trim_end g) g
  end.

Fixpoint trail_ok (ts : list token) : bool :=
  match ts with
  | [] => true
  | [t] => token_trail_ok t
  | _ :: ts' => trail_ok ts'
  end.

(** Whether the text of [ts] starts with white space: only a leading
    gap can. *)
Definition lead (ts : list token) : bool :=
  match ts with
  | Gap g :: _ => head_sat Js.is_space g
  | _ => false
  end.

End NormalForm.

(** ** More sample data *)

Module MoreSamples.
Import Component Lifecycle.

Definition page_ok : Page :=
  {| apiKey := Some "key"; sdk := ScriptLoads; mapElement := true;
     mapConstructorThrows := false |}.

Definition page_no_element : Page :=
  {| apiKey := Some "key"; sdk := ScriptLoads; mapElement := false;
     mapConstructorThrows := false |}.

Definition page_no_key : Page :=
  {| apiKey := None; sdk := ScriptLoads; mapElement := true;
     mapConstructorThrows := false |}.

Definition page_script_fails : Page :=
  {| apiKey := Some "key"; sdk := ScriptFails; mapElement := true;
     mapConstructorThrows := false |}.

End MoreSamples.

(** * Properties *)

(** ** The rendering pass: frame lemmas shared by both variants *)

Section PassFacts.
Import Component.
Variable w : World.

Lemma place_requests k c t st :
  requests (place w k c t st) = requests st.
Proof. unfold place. destruct (construct w k); reflexivity. Qed.

Lemma place_error k c t st :
  error (place w k c t st) = error st.
Proof. unfold place. destruct (construct w k); reflexivity. Qed.

Lemma place_fitted k c t st :
  fitted (place w k c t st) = fitted st.
Proof. unfold place. destruct (construct w k); reflexivity. Qed.

Lemma place_map k c t st :
  googleMap (place w k c t st) = googleMap st.
Proof. unfold place. destruct (construct w k); reflexivity. Qed.

Lemma place_skipped k c t st :
  skippedHouses (place w k c t st) = skippedHouses st.
Proof. unfold place. destruct (construct w k); reflexivity. Qed.


(** The call of [fitBounds], made or not, changes nothing else. *)
Lemma fit_frame st :
  error (fit st) = error st
  /\ successCount (fit st) = successCount st
  /\ skippedHouses (fit st) = skippedHouses st
  /\ markers (fit st) = markers st
  /\ requests (fit st) = requests st
  /\ bounds (fit st) = bounds st
  /\ googleMap (fit st) = googleMap st.
Proof. unfold fit. destruct (googleMap st) eqn:E; cbn; auto 10. Qed.

Lemma fit_fitted st :
  fitted (fit st)
  = match googleMap st with
    | Some _ => (fitted st ++ [bounds st])%list
    | None => fitted st
    end.
Proof. unfold fit. now destruct (googleMap st). Qed.

Lemma finish_aggregate msg st :
  successCount (finish msg st) = successCount st
  /\ skippedHouses (finish msg st) = skippedHouses st
  /\ markers (finish msg st) = markers st
  /\ requests (finish msg st) = requests st.
Proof.
  unfold finish. destruct (0 <? successCount st)%nat; [|repeat split].
  destruct (fit_frame st) as (_ & -> & -> & -> & -> & _). repeat split.
Qed.

Lemma finish_map msg st : googleMap (finish msg st) = googleMap st.
Proof.
  unfold finish. destruct (0 <? successCount st)%nat; [|reflexivity].
  apply fit_frame.
Qed.

Lemma finish_outcome msg st :
  (0 < successCount st ->
   finish msg st = fit st)
  /\ (successCount st = 0 -> finish msg st = set_error msg st).
Proof.
  unfold finish. split; intros H.
  - apply Nat.ltb_lt in H. now rewrite H.
  - now rewrite H.
Qed.

Lemma nested_step_frame st e :
  fitted (Nested.step w st e) = fitted st
  /\ error (Nested.step w st e) = error st.
Proof.
  destruct e as [zpid hd]. unfold Nested.step.
  destruct (Nested.address_parts (Nested.property hd)); [|now split].
  destruct (Nested.property hd); [|now split].
  destruct (Nested.embedded_coords p0); [|now split].
  split; [apply place_fitted|apply place_error].
Qed.

Lemma nested_loop_frame hs : forall st,
  fitted (Nested.loop w hs st) = fitted st
  /\ error (Nested.loop w hs st) = error st.
Proof.
  unfold Nested.loop. induction hs as [|e hs IH]; intros st.
  - now split.
  - cbn [fold_left]. destruct (IH (Nested.step w st e)) as [-> ->].
    apply nested_step_frame.
Qed.

Lemma nested_step_map st e :
  googleMap (Nested.step w st e) = googleMap st.
Proof.
  destruct e as [zpid hd]. unfold Nested.step.
  destruct (Nested.address_parts (Nested.property hd)); [|reflexivity].
  destruct (Nested.property hd); [|reflexivity].
  destruct (Nested.embedded_coords p0); [apply place_map|reflexivity].
Qed.

Lemma nested_loop_map hs : forall st,
  googleMap (Nested.loop w hs st) = googleMap st.
Proof.
  unfold Nested.loop. induction hs as [|e hs IH]; intros st; simpl.
  - reflexivity.
  - rewrite IH. apply nested_step_map.
Qed.

Lemma flat_step_map st e :
  googleMap (Flat.step w st e) = googleMap st.
Proof.
  destruct e as [mlsId [[a|]]]; unfold Flat.step; cbn [Flat.h_address];
    [|reflexivity].
  destruct (Js.truthy_str a); [|reflexivity].
  unfold Flat.geocodeAddress.
  destruct (geocode w _ _) as [| |[|c rs]]; try reflexivity.
  now rewrite place_map.
Qed.

Lemma flat_loop_map hs : forall st,
  googleMap (Flat.loop w hs st) = googleMap st.
Proof.
  unfold Flat.loop. induction hs as [|e hs IH]; intros st; simpl.
  - reflexivity.
  - rewrite IH. apply flat_step_map.
Qed.

Lemma flat_step_fitted st e :
  fitted (Flat.step w st e) = fitted st.
Proof.
  destruct e as [mlsId [[a|]]]; unfold Flat.step; cbn [Flat.h_address];
    [|reflexivity].
  destruct (Js.truthy_str a); [|reflexivity].
  unfold Flat.geocodeAddress.
  destruct (geocode w _ _) as [| |[|c rs]]; try reflexivity.
  now rewrite place_fitted.
Qed.

Lemma flat_loop_fitted hs : forall st,
  fitted (Flat.loop w hs st) = fitted st.
Proof.
  unfold Flat.loop. induction hs as [|e hs IH]; intros st; simpl.
  - reflexivity.
  - rewrite IH. apply flat_step_fitted.
Qed.

(** What the end of a pass adds to the [fitBounds] calls. *)
Lemma finish_fitted msg s :
  fitted (finish msg s)
  = match googleMap s with
    | Some _ =>
        if (0 <? successCount s)%nat then (fitted s ++ [bounds s])%list
        else fitted s
    | None => fitted s
    end.
Proof.
  unfold finish. destruct (0 <? successCount s)%nat;
    [rewrite fit_fitted|]; now destruct (googleMap s).
Qed.

(** A list is not itself with one more element. *)
Lemma not_longer {A} (l : list A) (x : A) : l <> (l ++ [x])%list.
Proof.
  intros H. apply (f_equal (@List.length A)) in H.
  rewrite length_app in H. cbn in H. lia.
Qed.

Lemma nested_step_requests st e :
  requests (Nested.step w st e) = requests st.
Proof.
  destruct e as [zpid hd]. unfold Nested.step.
  destruct (Nested.address_parts (Nested.property hd)); [|reflexivity].
  destruct (Nested.property hd); [|reflexivity].
  destruct (Nested.embedded_coords p0); [apply place_requests|reflexivity].
Qed.

Lemma nested_loop_requests hs : forall st,
  requests (Nested.loop w hs st) = requests st.
Proof.
  unfold Nested.loop. induction hs as [|e hs IH]; intros st; simpl.
  - reflexivity.
  - rewrite IH. apply nested_step_requests.
Qed.

Lemma nested_pass_requests hs st :
  requests (Nested.addHousesToMap w hs st) = requests st.
Proof.
  destruct hs as [|e hs]; [reflexivity|].
  unfold Nested.addHousesToMap.
  destruct (finish_aggregate "No houses could be displayed on the map."
              (Nested.loop w (e :: hs) (reset st))) as (_ & _ & _ & ->).
  now rewrite nested_loop_requests.
Qed.

End PassFacts.

Section AggregateFacts.
Import Component.
Variable w : World.

Lemma place_same_aggregate k c t a b :
  same_aggregate a b -> same_aggregate (place w k c t a) (place w k c t b).
Proof.
  intros [Hc Hs]. unfold place, same_aggregate.
  destruct (construct w k); simpl; rewrite ?Hc, ?Hs; auto.
Qed.

Lemma nested_step_same_aggregate e a b :
  same_aggregate a b ->
  same_aggregate (Nested.step w a e) (Nested.step w b e).
Proof.
  intros H. destruct e as [zpid hd]. unfold Nested.step.
  destruct (Nested.address_parts (Nested.property hd)) as [parts|].
  - destruct (Nested.property hd) as [house|].
    + destruct (Nested.embedded_coords house).
      * now apply place_same_aggregate.
      * destruct H as [Hc Hs]. split; simpl; congruence.
    + destruct H as [Hc Hs]. split; simpl; congruence.
  - destruct H as [Hc Hs]. split; simpl; congruence.
Qed.

Lemma nested_loop_same_aggregate hs : forall a b,
  same_aggregate a b ->
  same_aggregate (Nested.loop w hs a) (Nested.loop w hs b).
Proof.
  unfold Nested.loop. induction hs as [|e hs IH]; intros a b H; simpl.
  - exact H.
  - apply IH. now apply nested_step_same_aggregate.
Qed.







Lemma flat_step_requests st mlsId a :
  Js.truthy_str a = true ->
  requests (Flat.step w st (mlsId, {| Flat.h_address := Some a |}))
  = (requests st ++ [normalizeAddress a])%list.
Proof.
  intros Ha. unfold Flat.step. simpl. rewrite Ha.
  unfold Flat.geocodeAddress.
  destruct (geocode w (List.length (requests st)) (normalizeAddress a))
    as [| |[|c rs]]; simpl; try reflexivity.
  now rewrite place_requests.
Qed.

Lemma flat_loop_requests hs : forall st,
  requests (Flat.loop w hs st)
  = (requests st ++ map normalizeAddress (Flat.usable_addresses hs))%list.
Proof.
  unfold Flat.loop.
  induction hs as [|[mlsId [[a|]]] hs IH]; intros st.
  - simpl. now rewrite app_nil_r.
  - cbn [fold_left]. rewrite IH.
    cbn [Flat.usable_addresses flat_map snd Flat.h_address].
    destruct (Js.truthy_str a) eqn:Ha.
    + rewrite (flat_step_requests st mlsId a Ha).
      cbn [map app]. now rewrite <- app_assoc.
    + unfold Flat.step. cbn [Flat.h_address]. rewrite Ha. reflexivity.
  - cbn [fold_left]. rewrite IH. reflexivity.
Qed.

End AggregateFacts.

(** ** Claims about the rendering pass *)

Section PassClaims.
Import Component Samples.

(** C2, on the code: an exception of a placement is caught by the [catch]
    of its [try], which only logs.  In a pass over ["h1"] and ["h2"], of
    either variant, in which the marker construction of ["h1"] throws, the
    pass goes on to place ["h2"], but no entry for ["h1"] reaches
    [skippedHouses] and no message is set: the failure shows nowhere in
    the state the page displays.  The same holds when it is the listener
    attachment of ["h1"] that throws; the marker of ["h1"], built and
    pushed before, then stays, with the label "1" the next one also gets. *)
Theorem placement_failure_leaves_no_record :
  let nested :=
    Nested.addHousesToMap world_h1_throws
      [("h1", house_ok); ("h2", house_ok)] setup in
  let flat :=
    Flat.addHousesToMap world_h1_throws
      [("h1", flat_house "12 Main St"); ("h2", flat_house "9 Elm St")] setup in
  let listener :=
    Nested.addHousesToMap world_h1_listener_throws
      [("h1", house_ok); ("h2", house_ok)] setup in
  (skippedHouses nested = [] /\ error nested = ""
   /\ successCount nested = 1 /\ map glyph (markers nested) = ["1"])
  /\ (skippedHouses flat = [] /\ error flat = ""
      /\ successCount flat = 1 /\ map glyph (markers flat) = ["1"])
  /\ (skippedHouses listener = [] /\ error listener = ""
      /\ successCount listener = 1
      /\ map glyph (markers listener) = ["1"; "1"]).
Proof. vm_compute. repeat split. Qed.

(** C3, as stated, fails on the nested variant: a listing with a complete
    address and no embedded coordinate is skipped and no geocoding request
    is sent for it. *)
Lemma nested_listing_without_coordinate_not_looked_up :
  let st := Nested.addHousesToMap world_ok [("h1", house_no_coords)] setup in
  requests st = []
  /\ skippedHouses st
     = [ {| key := "h1"; address := "12 Main St, Houston, TX 77001" |} ]
  /\ markers st = [].
Proof. vm_compute. repeat split. Qed.

(** C3, amended: in the flat variant a pass sends exactly one geocoding
    request, carrying the normalized address, for each listing whose
    address is a non-empty string, in the order of the pass, and none for
    the others; the nested variant never sends a geocoding request. *)
Theorem one_lookup_per_addressed_listing :
  forall (w : World) (st : State),
    (forall houseEntries,
        requests (Flat.addHousesToMap w houseEntries st)
        = (requests st
           ++ map normalizeAddress (Flat.usable_addresses houseEntries))%list)
    /\ (forall houseEntries,
           requests (Nested.addHousesToMap w houseEntries st) = requests st).
Proof.
  intros w st. split.
  - intros [|e hs].
    + simpl. now rewrite app_nil_r.
    + destruct (finish_aggregate
                  "No houses could be geocoded and displayed on the map."
                  (Flat.loop w (e :: hs) (reset st))) as (_ & _ & _ & Hr).
      unfold Flat.addHousesToMap. rewrite Hr.
      now rewrite flat_loop_requests.
  - intros hs. apply nested_pass_requests.
Qed.









(** C8, as stated, fails: after the pass over one listing without a postal
    code the message is "No houses could be displayed on the map.", not
    "No houses could be displayed.", and the record holds the text
    "Invalid or missing address", not "invalid address". *)
Lemma nothing_placed_message_differs :
  let st := Nested.addHousesToMap world_ok [("h1", house_no_zip)] setup in
  error st = "No houses could be displayed on the map."
  /\ error st <> "No houses could be displayed."
  /\ skippedHouses st
     = [ {| key := "h1"; address := "Invalid or missing address" |} ]
  /\ (forall r, In r (skippedHouses st) -> address r <> "invalid address")
  /\ markers st = [] /\ fitted st = [].
Proof.
  vm_compute. repeat split; try discriminate.
  intros r [<-|[]]. discriminate.
Qed.

(** C8, amended: at the end of a pass over at least one listing,
    [fitBounds] is called, once and with the bounds of the placed markers,
    if and only if [successCount > 0] and the component holds a map.
    When [successCount > 0] the message is left as it was; otherwise no
    call is made and the message becomes "No houses could be displayed on
    the map.".  When [initMap] has built no map, [googleMap] is [null]:
    reading [fitBounds] off it throws inside the [try], and no call is
    made however many markers were placed.  For a pass whose only listing
    lacks an address component, no marker is placed, the one record is
    [{ zpid, address: 'Invalid or missing address' }] and the message is
    that one. *)
Theorem fit_iff_some_placement :
  forall (w : World) (st : State) entry rest,
    let st' := Nested.addHousesToMap w (entry :: rest) st in
    (fitted st' = (fitted st ++ [bounds st'])%list
     <-> 0 < successCount st' /\ googleMap st <> None)
    /\ (fitted st' = fitted st
        <-> successCount st' = 0 \/ googleMap st = None)
    /\ (0 < successCount st' -> error st' = error st)
    /\ (successCount st' = 0 ->
        error st' = "No houses could be displayed on the map.")
    /\ (forall zpid houseData,
           entry = (zpid, houseData) -> rest = [] ->
           Nested.address_parts (Nested.property houseData) = None ->
           markers st' = markers st
           /\ successCount st' = 0
           /\ skippedHouses st'
              = [ {| key := zpid; address := "Invalid or missing address" |} ]
           /\ fitted st' = fitted st
           /\ error st' = "No houses could be displayed on the map.").
Proof.
  intros w st entry rest st'.
  assert (Hlast : forall zpid houseData,
             entry = (zpid, houseData) -> rest = [] ->
             Nested.address_parts (Nested.property houseData) = None ->
             markers st' = markers st
             /\ successCount st' = 0
             /\ skippedHouses st'
                = [ {| key := zpid;
                       address := "Invalid or missing address" |} ]
             /\ fitted st' = fitted st
             /\ error st' = "No houses could be displayed on the map.").
  { intros zpid hd -> -> Hnone. subst st'.
    unfold Nested.addHousesToMap, Nested.loop. cbn [fold_left].
    unfold Nested.step. rewrite Hnone. cbn. repeat split. }
  cut ((fitted st' = (fitted st ++ [bounds st'])%list
        <-> 0 < successCount st' /\ googleMap st <> None)
       /\ (fitted st' = fitted st
           <-> successCount st' = 0 \/ googleMap st = None)
       /\ (0 < successCount st' -> error st' = error st)
       /\ (successCount st' = 0 ->
           error st' = "No houses could be displayed on the map.")).
  { intros (H1 & H2 & H3 & H4). repeat (split; [assumption|]).
    exact Hlast. }
  clear Hlast. subst st'. unfold Nested.addHousesToMap.
  set (s := Nested.loop w (entry :: rest) (reset st)).
  destruct (nested_loop_frame w (entry :: rest) (reset st)) as [F E].
  pose proof (nested_loop_map w (entry :: rest) (reset st)) as G.
  fold s in F, E, G. cbn [reset fitted error googleMap] in F, E, G.
  destruct (finish_outcome "No houses could be displayed on the map." s)
    as [Hpos Hzero].
  destruct (finish_aggregate "No houses could be displayed on the map." s)
    as (Hc & _).
  rewrite Hc.
  destruct (Nat.eq_0_gt_0_cases (successCount s)) as [H0|H1].
  - rewrite (Hzero H0). cbn [set_error fitted error bounds]. rewrite F.
    split; [|split; [|split]].
    + split; [intros H; now apply not_longer in H|lia].
    + split; [now left|reflexivity].
    + lia.
    + reflexivity.
  - rewrite (Hpos H1), fit_fitted.
    destruct (fit_frame s) as (-> & _ & _ & _ & _ & -> & _).
    rewrite G, F, E.
    destruct (googleMap st) as [g|]; (split; [|split; [|split]]).
    + split; [intros _; split; [exact H1|discriminate]|reflexivity].
    + split; [intros H; symmetry in H; now apply not_longer in H|].
      intros [H|H]; [lia|discriminate].
    + reflexivity.
    + lia.
    + split; [intros H; now apply not_longer in H|].
      intros [_ H]. now destruct H.
    + split; [now right|reflexivity].
    + reflexivity.
    + lia.
Qed.

(** One listing placed on a map: one call of [fitBounds], no message. *)
Lemma fit_iff_some_placement_witness :
  let st' := Nested.addHousesToMap world_ok [("h1", house_ok)] with_map in
  fitted st' = [[houston]] /\ error st' = "".
Proof.
  pose proof (fit_iff_some_placement world_ok with_map ("h1", house_ok) [])
    as (H1 & _ & H3 & _).
  split.
  - apply (proj2 H1). split; [vm_compute; lia|discriminate].
  - apply H3. vm_compute. lia.
Defined.

(** C9: the aggregate is rebuilt from scratch at every pass.  A pass
    over at least one listing resets first: the loop starts from
    [successCount = 0] and an empty skip list, and what the pass leaves
    in them does not depend on what was there before.  A pass over zero
    listings returns before the reset; the component however runs its
    pass once, from [onMounted], on the state that the set-up and
    [initMap] leave, in which [successCount] is 0 and the skip list is
    empty.  So at every pass the component makes, one over zero listings
    too, the aggregate is 0 and empty before any listing is processed,
    and afterwards it is what the loop body makes of the listings of this
    pass, starting from 0 and the empty list. *)
Theorem aggregate_rebuilt_each_pass :
  forall (w : World),
    (forall (st other : State) entry rest,
        Nested.addHousesToMap w (entry :: rest) st
        = finish "No houses could be displayed on the map."
                 (Nested.loop w (entry :: rest) (reset st))
        /\ successCount (reset st) = 0 /\ skippedHouses (reset st) = []
        /\ successCount (Nested.addHousesToMap w (entry :: rest) st)
           = successCount (Nested.addHousesToMap w (entry :: rest) other)
        /\ skippedHouses (Nested.addHousesToMap w (entry :: rest) st)
           = skippedHouses (Nested.addHousesToMap w (entry :: rest) other))
    /\ (forall (p : Lifecycle.Page) houseEntries,
           let before :=
             Lifecycle.st
               (Lifecycle.initMap Nested.mapOptions p (Lifecycle.created p)) in
           let s :=
             Lifecycle.mounted Nested.mapOptions
               (Nested.addHousesToMap w houseEntries) p in
           (successCount before = 0 /\ skippedHouses before = [])
           /\ (Lifecycle.has_key p = true ->
               Lifecycle.sdk p = Lifecycle.AlreadyLoaded
               \/ Lifecycle.sdk p = Lifecycle.ScriptLoads ->
               Lifecycle.st s = Nested.addHousesToMap w houseEntries before
               /\ successCount (Lifecycle.st s)
                  = successCount (Nested.loop w houseEntries setup)
               /\ skippedHouses (Lifecycle.st s)
                  = skippedHouses (Nested.loop w houseEntries setup))
           /\ (houseEntries = [] ->
               successCount (Lifecycle.st s) = 0
               /\ skippedHouses (Lifecycle.st s) = [])).
Proof.
  intros w. split.
  - intros st other entry rest.
    split; [reflexivity|split; [reflexivity|split; [reflexivity|]]].
    unfold Nested.addHousesToMap.
    destruct (finish_aggregate "No houses could be displayed on the map."
                (Nested.loop w (entry :: rest) (reset st))) as (-> & -> & _).
    destruct (finish_aggregate "No houses could be displayed on the map."
                (Nested.loop w (entry :: rest) (reset other)))
      as (-> & -> & _).
    apply (nested_loop_same_aggregate w). split; reflexivity.
  - intros p hs before s.
    assert (B : successCount before = 0 /\ skippedHouses before = []).
    { subst before. unfold Lifecycle.initMap, Lifecycle.created.
      destruct (Lifecycle.has_key p), (Lifecycle.mapElement p),
        (Lifecycle.mapConstructorThrows p); split; reflexivity. }
    split; [exact B|split].
    + intros K Hl.
      assert (E : Lifecycle.st s = Nested.addHousesToMap w hs before).
      { subst s before. unfold Lifecycle.mounted, Lifecycle.onMounted.
        rewrite K. cbn [negb]. destruct Hl as [-> | ->]; reflexivity. }
      split; [exact E|]. rewrite E.
      destruct hs as [|entry rest]; [exact B|].
      unfold Nested.addHousesToMap.
      destruct (finish_aggregate "No houses could be displayed on the map."
                  (Nested.loop w (entry :: rest) (reset before)))
        as (-> & -> & _).
      apply (nested_loop_same_aggregate w). split; reflexivity.
    + intros ->. subst s before.
      unfold Lifecycle.mounted, Lifecycle.onMounted, Lifecycle.initMap,
        Lifecycle.created.
      destruct (Lifecycle.has_key p), (Lifecycle.sdk p),
        (Lifecycle.mapElement p), (Lifecycle.mapConstructorThrows p);
        split; reflexivity.
Qed.

(** A mount with one listing that is placed and one without coordinate,
    and a mount with no listing. *)
Lemma aggregate_rebuilt_each_pass_witness :
  (let s :=
     Lifecycle.mounted Nested.mapOptions
       (Nested.addHousesToMap world_ok
          [("h1", house_ok); ("h2", house_no_coords)])
       MoreSamples.page_ok in
   successCount (Lifecycle.st s) = 1
   /\ skippedHouses (Lifecycle.st s)
      = [ {| key := "h2"; address := "12 Main St, Houston, TX 77001" |} ])
  /\ (let s :=
        Lifecycle.mounted Nested.mapOptions
          (Nested.addHousesToMap world_ok []) MoreSamples.page_ok in
      successCount (Lifecycle.st s) = 0
      /\ skippedHouses (Lifecycle.st s) = []).
Proof.
  split.
  - destruct (proj2 (aggregate_rebuilt_each_pass world_ok)
                MoreSamples.page_ok
                [("h1", house_ok); ("h2", house_no_coords)])
      as (_ & H & _).
    destruct (H eq_refl (or_intror eq_refl)) as (_ & H1 & H2).
    split; [exact H1|exact H2].
  - destruct (proj2 (aggregate_rebuilt_each_pass world_ok)
                MoreSamples.page_ok []) as (_ & _ & H).
    exact (H eq_refl).
Defined.

(** C10, as stated, fails: a listing with the latitude 0 that lacks the
    postal code is stopped by the address check, which comes first; its
    record holds the text "Invalid or missing address", not an address of
    the listing. *)
Lemma zero_latitude_without_zipcode_has_no_address :
  Nested.property house_equator_no_zip
  = Some {| Nested.p_address := Some no_zip_address;
            Nested.latitude := Some 0%float;
            Nested.longitude := Some (-95)%float;
            Nested.description := None |}
  /\ let st :=
       Nested.addHousesToMap world_ok [("h1", house_equator_no_zip)] setup in
     markers st = [] /\ successCount st = 0
     /\ skippedHouses st
        = [ {| key := "h1"; address := "Invalid or missing address" |} ].
Proof. vm_compute. repeat split. Qed.

(** C10, amended: in the nested variant a listing whose latitude or
    longitude is absent or falsy, 0 among them, gets no coordinate and is
    skipped: no marker is built for it, nothing is counted, and exactly
    one record with its key is appended to the skip list.  The record
    holds the full address when the four address components are there,
    and "Invalid or missing address" when one of them is missing or
    empty. *)
Theorem falsy_coordinate_is_skipped :
  forall (w : World) (st : State) zpid houseData house,
    Nested.property houseData = Some house ->
    Js.truthy_numfield (Nested.latitude house)
    && Js.truthy_numfield (Nested.longitude house) = false ->
    let st' := Nested.step w st (zpid, houseData) in
    Nested.embedded_coords house = None
    /\ markers st' = markers st
    /\ successCount st' = successCount st
    /\ bounds st' = bounds st
    /\ requests st' = requests st
    /\ error st' = error st
    /\ (forall parts,
           Nested.address_parts (Some house) = Some parts ->
           skippedHouses st'
           = (skippedHouses st
              ++ [ {| key := zpid;
                      address := Nested.fullAddress parts |} ])%list)
    /\ (Nested.address_parts (Some house) = None ->
        skippedHouses st'
        = (skippedHouses st
           ++ [ {| key := zpid;
                   address := "Invalid or missing address" |} ])%list).
Proof.
  intros w st zpid hd house Hp Hf st'.
  assert (E : Nested.embedded_coords house = None).
  { unfold Nested.embedded_coords.
    destruct (Nested.latitude house) as [la|];
      destruct (Nested.longitude house) as [lo|]; cbn in Hf |- *;
      try reflexivity.
    now rewrite Hf. }
  subst st'. unfold Nested.step. rewrite Hp, E.
  destruct (Nested.address_parts (Some house)) as [parts|];
    repeat split; try reflexivity; try discriminate.
  now intros parts' [= <-].
Qed.

(** The listing with latitude 0 and a complete address. *)
Lemma falsy_coordinate_is_skipped_witness :
  let st' := Nested.step world_ok setup ("h1", house_equator) in
  markers st' = [] /\ successCount st' = 0
  /\ skippedHouses st'
     = [ {| key := "h1"; address := "12 Main St, Houston, TX 77001" |} ].
Proof.
  pose proof (falsy_coordinate_is_skipped world_ok setup "h1" house_equator
                _ eq_refl eq_refl) as (_ & H1 & H2 & _ & _ & _ & H3 & _).
  split; [exact H1|split; [exact H2|]].
  exact (H3 ("12 Main St", "Houston", "TX", "77001") eq_refl).
Defined.

End PassClaims.

(** ** Strings *)

Section StringFacts.

Lemma string_app_assoc (a b c : string) : (a ++ b) ++ c = a ++ (b ++ c).
Proof. induction a as [|x a IH]; simpl; [reflexivity|now rewrite IH]. Qed.

End StringFacts.

(** ** Escaping *)

Section Escaping.

Lemma replace_char_app c rep a b :
  Js.replace_char c rep (a ++ b)
  = Js.replace_char c rep a ++ Js.replace_char c rep b.
Proof.
  induction a as [|x a IH]; simpl; [reflexivity|].
  destruct (Ascii.eqb x c); rewrite IH; simpl;
    [now rewrite string_app_assoc|reflexivity].
Qed.

Lemma escape_passes_cons c s :
  escape_passes (String c s) = escape_passes (Js.str1 c) ++ escape_passes s.
Proof.
  change (String c s) with (Js.str1 c ++ s).
  unfold escape_passes. now rewrite !replace_char_app.
Qed.

Lemma escapeHtml_passes c s :
  escapeHtml (String c s) = escape_passes (String c s).
Proof. reflexivity. Qed.



(** C1, on the code: the two last replacements of [escapeHtml] put [<] in
    the place of [<] and [>] in the place of [>], so both characters pass
    through as they come; on the input [<b>'] the quote is escaped and the
    angle brackets are not. *)
Theorem escapeHtml_keeps_angle_brackets :
  escapeHtml "<b>'" = "<b>\'"
  /\ unescaped is_angle (escapeHtml "<b>'") = true
  /\ escapeHtml "<script>" = "<script>".
Proof. vm_compute. repeat split. Qed.

End Escaping.

(** ** The normalizer on words and gaps *)

Section CaseFolding.
Import Words.

Lemma canonicalize_word c : Js.is_word (Js.canonicalize c) = Js.is_word c.
Proof. destruct c as [[] [] [] [] [] [] [] []]; reflexivity. Qed.

(** Two characters equal up to case are both word characters or both
    not. *)
Lemma eq_ci_word a b : Js.eq_ci a b = true -> Js.is_word a = Js.is_word b.
Proof.
  unfold Js.eq_ci. intros H. apply Ascii.eqb_eq in H.
  rewrite <- (canonicalize_word a), <- (canonicalize_word b).
  now rewrite H.
Qed.

Lemma eq_ci_hash c : Js.eq_ci "#" c = true -> c = "#"%char.
Proof.
  destruct c as [[] [] [] [] [] [] [] []]; vm_compute; intros H;
    congruence.
Qed.

Lemma eq_ci_space c : Js.eq_ci " " c = true -> c = " "%char.
Proof.
  destruct c as [[] [] [] [] [] [] [] []]; vm_compute; intros H;
    congruence.
Qed.

Lemma all_chars_app p a b :
  all_chars p (a ++ b) = all_chars p a && all_chars p b.
Proof.
  induction a as [|x a IH]; simpl; [reflexivity|].
  now rewrite IH, andb_assoc.
Qed.

Lemma eq_ci_str_all_word a b :
  eq_ci_str a b = true -> all_chars Js.is_word b = all_chars Js.is_word a.
Proof.
  revert b. induction a as [|x a IH]; intros [|y b]; simpl;
    try congruence.
  intros H. apply andb_true_iff in H as [Hxy Hab].
  now rewrite (eq_ci_word x y Hxy), (IH b Hab).
Qed.

Lemma eq_ci_str_length a b :
  eq_ci_str a b = true -> String.length b = String.length a.
Proof.
  revert b. induction a as [|x a IH]; intros [|y b]; simpl;
    try congruence.
  intros H. apply andb_true_iff in H as [_ Hab]. now rewrite (IH b Hab).
Qed.

(** [match_ci] finds exactly the prefixes equal to the key up to case. *)
Lemma match_ci_sound key : forall p s l r,
  Js.match_ci key p s = Some (l, r) ->
  exists m, s = m ++ r /\ eq_ci_str key m = true
            /\ l = last_is_word p m.
Proof.
  induction key as [|k key IH]; intros p s l r; simpl.
  - intros [= <- <-]. now exists "".
  - destruct s as [|c s]; [discriminate|].
    destruct (Js.eq_ci k c) eqn:Hk; [|discriminate].
    intros H. destruct (IH _ _ _ _ H) as (m & -> & Hm & ->).
    exists (String c m). simpl. now rewrite Hk, Hm.
Qed.

Lemma match_ci_complete key : forall p m r,
  eq_ci_str key m = true ->
  Js.match_ci key p (m ++ r) = Some (last_is_word p m, r).
Proof.
  induction key as [|k key IH]; intros p [|c m] r; simpl; try congruence.
  intros H. apply andb_true_iff in H as [-> Hm]. now apply IH.
Qed.

Lemma eq_ci_str_app a b m :
  eq_ci_str (a ++ b) m = true ->
  exists m1 m2, m = m1 ++ m2 /\ eq_ci_str a m1 = true
                /\ eq_ci_str b m2 = true.
Proof.
  revert m. induction a as [|x a IH]; intros m; simpl.
  - intros H. now exists "", m.
  - destruct m as [|y m]; [discriminate|].
    intros H. apply andb_true_iff in H as [Hxy H].
    destruct (IH m H) as (m1 & m2 & -> & H1 & H2).
    exists (String y m1), m2. simpl. now rewrite Hxy, H1.
Qed.

End CaseFolding.

Section Scanner.
Import Words.
Variables key value : string.

Lemma last_is_word_word w :
  all_chars Js.is_word w = true -> last_is_word true w = true.
Proof.
  enough (G : forall p, p = true -> all_chars Js.is_word w = true ->
                        last_is_word p w = true) by now apply G.
  induction w as [|c w IH]; intros p Hp; simpl; [easy|].
  intros H. apply andb_true_iff in H as [Hc Hw]. now apply IH.
Qed.

Lemma last_is_word_gap g p :
  all_chars non_word g = true -> g <> "" -> last_is_word p g = false.
Proof.
  enough (G : forall q, all_chars non_word g = true ->
                        (g = "" -> q = false) -> last_is_word q g = false).
  { intros H Hne. apply G; [exact H|]. intros E. now destruct Hne. }
  induction g as [|c g IH]; intros q; simpl.
  - intros _ H. now apply H.
  - intros H _. apply andb_true_iff in H as [Hc Hg]. apply IH; [exact Hg|].
    intros _. unfold non_word in Hc. now destruct (Js.is_word c).
Qed.

(** Passing over the matched text. *)
Lemma scan_skip a : forall p rest,
  Js.replace_scan key value p (String.length a) (a ++ rest)
  = Js.replace_scan key value (last_is_word p a) 0 rest.
Proof.
  induction a as [|c a IH]; intros p rest; simpl.
  - now destruct rest.
  - apply IH.
Qed.

Lemma match_bounded_sound p s r :
  Js.match_bounded key p s = Some r ->
  exists m, s = m ++ r /\ eq_ci_str key m = true
            /\ xorb (last_is_word p m) (Js.next_is_word r) = true.
Proof.
  unfold Js.match_bounded.
  destruct (xorb p (Js.next_is_word s)); [|discriminate].
  destruct (Js.match_ci key p s) as [[l r']|] eqn:Hm; [|discriminate].
  destruct (xorb l (Js.next_is_word r')) eqn:Hx; [|discriminate].
  intros [= <-]. destruct (match_ci_sound _ _ _ _ _ Hm) as (m & -> & H & ->).
  now exists m.
Qed.

Lemma match_bounded_complete p m r :
  eq_ci_str key m = true ->
  xorb p (Js.next_is_word (m ++ r)) = true ->
  xorb (last_is_word p m) (Js.next_is_word r) = true ->
  Js.match_bounded key p (m ++ r) = Some r.
Proof.
  intros Hm Hs He. unfold Js.match_bounded.
  now rewrite Hs, (match_ci_complete key p m r Hm), He.
Qed.

(** At a match the value takes the place of the matched text. *)
Lemma scan_match p m r :
  key <> "" ->
  Js.match_bounded key p (m ++ r) = Some r ->
  eq_ci_str key m = true ->
  Js.replace_scan key value p 0 (m ++ r)
  = value ++ Js.replace_scan key value (last_is_word p m) 0 r.
Proof.
  intros Hk Hb Hm.
  pose proof (eq_ci_str_length _ _ Hm) as Hl.
  destruct m as [|c m].
  - destruct key; [now destruct Hk|discriminate].
  - cbn [append Js.replace_scan]. cbn [append] in Hb. rewrite Hb.
    cbn [String.length] in Hl. rewrite <- Hl.
    cbn [Nat.sub]. rewrite Nat.sub_0_r.
    now rewrite scan_skip.
Qed.

Lemma scan_no_match p c rest :
  Js.match_bounded key p (String c rest) = None ->
  Js.replace_scan key value p 0 (String c rest)
  = String c (Js.replace_scan key value (Js.is_word c) 0 rest).
Proof. intros H. cbn [Js.replace_scan]. now rewrite H. Qed.

(** No match starts inside a word. *)
Lemma scan_inside_word w : forall rest,
  all_chars Js.is_word w = true ->
  Js.replace_scan key value true 0 (w ++ rest)
  = w ++ Js.replace_scan key value (last_is_word true w) 0 rest.
Proof.
  induction w as [|c w IH]; intros rest; [reflexivity|].
  cbn [all_chars append]. intros H. apply andb_true_iff in H as [Hc Hw].
  rewrite scan_no_match.
  - rewrite Hc, (IH rest Hw). cbn [last_is_word]. now rewrite Hc.
  - unfold Js.match_bounded. cbn [Js.next_is_word]. now rewrite Hc.
Qed.

(** A word at whose start there is no match is copied. *)
Lemma scan_word_no_match w rest :
  all_chars Js.is_word w = true ->
  Js.match_bounded key false (w ++ rest) = None ->
  Js.replace_scan key value false 0 (w ++ rest)
  = w ++ Js.replace_scan key value (last_is_word false w) 0 rest.
Proof.
  destruct w as [|c w]; [reflexivity|].
  cbn [all_chars append]. intros H Hn. apply andb_true_iff in H as [Hc Hw].
  rewrite (scan_no_match _ _ _ Hn), Hc, (scan_inside_word w rest Hw).
  cbn [last_is_word]. now rewrite Hc.
Qed.

(** A key that starts with a word character matches nowhere in a gap. *)
Lemma scan_gap g : forall p rest,
  Js.next_is_word key = true ->
  all_chars non_word g = true ->
  Js.replace_scan key value p 0 (g ++ rest)
  = g ++ Js.replace_scan key value (last_is_word p g) 0 rest.
Proof.
  induction g as [|c g IH]; intros p rest Hk; [reflexivity|].
  cbn [all_chars append]. intros H. apply andb_true_iff in H as [Hc Hg].
  unfold non_word in Hc. apply negb_true_iff in Hc.
  rewrite scan_no_match.
  - now rewrite (IH _ rest Hk Hg).
  - unfold Js.match_bounded. cbn [Js.next_is_word]. rewrite Hc.
    destruct p; [|reflexivity]. cbn [xorb].
    destruct key as [|k key']; [discriminate|].
    cbn [Js.match_ci Js.next_is_word] in *.
    destruct (Js.eq_ci k c) eqn:E; [|reflexivity].
    apply eq_ci_word in E. congruence.
Qed.

(** A key whose first character occurs nowhere, in either case, changes
    nothing. *)
Lemma scan_absent k key' s : forall p,
  key = String k key' ->
  all_chars (fun c => negb (Js.eq_ci k c)) s = true ->
  Js.replace_scan key value p 0 s = s.
Proof.
  induction s as [|c s IH]; intros p Hk; [reflexivity|].
  cbn [all_chars]. intros H. apply andb_true_iff in H as [Hc Hs].
  apply negb_true_iff in Hc.
  rewrite scan_no_match.
  - now rewrite (IH _ Hk Hs).
  - unfold Js.match_bounded. rewrite Hk. cbn [Js.match_ci]. rewrite Hc.
    now destruct (xorb p (Js.next_is_word (String c s))).
Qed.

End Scanner.

Section Tokens.
Import Words.

Lemma render_app a b : render (a ++ b) = render a ++ render b.
Proof.
  induction a as [|t a IH]; simpl; [reflexivity|].
  now rewrite IH, string_app_assoc.
Qed.

Lemma render_tokenize s : render (tokenize s) = s.
Proof.
  induction s as [|c s IH]; [reflexivity|].
  cbn [tokenize]. destruct (tokenize s) as [|[w|g] ts];
    destruct (Js.is_word c); cbn in *; now rewrite <- IH.
Qed.

Lemma valid_tokenize s : valid (tokenize s) = true.
Proof.
  induction s as [|c s IH]; [reflexivity|].
  cbn [tokenize]. destruct (tokenize s) as [|[w|g] ts];
    destruct (Js.is_word c) eqn:Hc; cbn in *;
    unfold non_word; rewrite ?Hc; cbn; try reflexivity; try exact IH.
  - apply andb_true_iff in IH as [IH Hv]. apply andb_true_iff in IH as [IH Hs].
    apply andb_true_iff in IH as [_ Hw]. now rewrite Hw, Hs, Hv.
  - apply andb_true_iff in IH as [IH Hv]. apply andb_true_iff in IH as [IH Hs].
    apply andb_true_iff in IH as [_ Hw]. unfold non_word in Hw.
    now rewrite Hw, Hs, Hv.
Qed.

(** A run of characters that satisfy [p] is determined by the text that
    starts with it, when what follows does not go on with [p]. *)
Lemma run_split p a : forall b x y,
  all_chars p a = true -> all_chars p b = true ->
  head_sat p x = false -> head_sat p y = false ->
  a ++ x = b ++ y -> a = b /\ x = y.
Proof.
  induction a as [|c a IH]; intros [|d b] x y Ha Hb Hx Hy; cbn.
  - now intros ->.
  - intros ->. cbn in Hb, Hx. apply andb_true_iff in Hb as [Hd _].
    congruence.
  - intros <-. cbn in Ha, Hy. apply andb_true_iff in Ha as [Hc _].
    congruence.
  - intros [= -> E]. cbn in Ha, Hb.
    apply andb_true_iff in Ha as [_ Ha]. apply andb_true_iff in Hb as [_ Hb].
    destruct (IH b x y Ha Hb Hx Hy E) as [-> ->]. now split.
Qed.

Lemma word_token_shape w ts :
  valid (Word w :: ts) = true ->
  w <> "" /\ all_chars Js.is_word w = true
  /\ starts_with_word ts = false /\ valid ts = true
  /\ head_sat Js.is_word (render ts) = false.
Proof.
  cbn. intros H. apply andb_true_iff in H as [H Hv].
  apply andb_true_iff in H as [H Hs]. apply andb_true_iff in H as [Hn Hw].
  apply negb_true_iff in Hs.
  repeat split; try assumption.
  - intros ->. discriminate.
  - destruct ts as [|[x|g] ts']; [reflexivity|discriminate|].
    cbn in Hv. apply andb_true_iff in Hv as [Hv _].
    apply andb_true_iff in Hv as [Hv _].
    apply andb_true_iff in Hv as [Hg1 Hg2].
    destruct g as [|c g]; [discriminate|]. cbn in Hg2 |- *.
    apply andb_true_iff in Hg2 as [Hc _]. unfold non_word in Hc.
    now apply negb_true_iff in Hc.
Qed.

Lemma gap_token_shape g ts :
  valid (Gap g :: ts) = true ->
  g <> "" /\ all_chars non_word g = true
  /\ starts_with_gap ts = false /\ valid ts = true
  /\ head_sat non_word (render ts) = false.
Proof.
  cbn. intros H. apply andb_true_iff in H as [H Hv].
  apply andb_true_iff in H as [H Hs]. apply andb_true_iff in H as [Hn Hw].
  apply negb_true_iff in Hs.
  repeat split; try assumption.
  - intros ->. discriminate.
  - destruct ts as [|[x|g'] ts']; [reflexivity| |discriminate].
    cbn in Hv. apply andb_true_iff in Hv as [Hv _].
    apply andb_true_iff in Hv as [Hv _].
    apply andb_true_iff in Hv as [Hx1 Hx2].
    destruct x as [|c x]; [discriminate|]. cbn in Hx2 |- *.
    apply andb_true_iff in Hx2 as [Hc _]. unfold non_word.
    now rewrite Hc.
Qed.

Lemma last_is_word_nonempty_word w p :
  w <> "" -> all_chars Js.is_word w = true -> last_is_word p w = true.
Proof.
  destruct w as [|c w]; [easy|]. cbn. intros _ H.
  apply andb_true_iff in H as [-> Hw]. now apply last_is_word_word.
Qed.

Lemma last_is_word_app a b p :
  last_is_word p (a ++ b) = last_is_word (last_is_word p a) b.
Proof. revert p. induction a as [|c a IH]; intros p; cbn; auto. Qed.

Lemma head_word_app w x :
  w <> "" -> all_chars Js.is_word w = true ->
  Js.next_is_word (w ++ x) = true.
Proof.
  destruct w as [|c w]; [easy|]. cbn. intros _ H.
  now apply andb_true_iff in H as [-> _].
Qed.

End Tokens.

Section Passes.
Import Words.

Lemma next_is_word_head s : Js.next_is_word s = head_sat Js.is_word s.
Proof. reflexivity. Qed.

Lemma nonempty_by_length (k m : string) :
  k <> "" -> String.length m = String.length k -> m <> "".
Proof. intros Hk Hl ->. destruct k; [now apply Hk|discriminate]. Qed.

(** A one-word key matches at the start of a word exactly when it is
    that word, up to case. *)
Lemma single_match_inv k w ts r :
  k <> "" -> all_chars Js.is_word k = true ->
  valid (Word w :: ts) = true ->
  Js.match_bounded k false (w ++ render ts) = Some r ->
  eq_ci_str k w = true /\ r = render ts.
Proof.
  intros Hk Hkw Hv Hm.
  destruct (word_token_shape _ _ Hv) as (Hw & Hww & _ & _ & Hts).
  destruct (match_bounded_sound _ _ _ _ Hm) as (m & E & Hkm & Hend).
  assert (Hmw : all_chars Js.is_word m = true)
    by now rewrite (eq_ci_str_all_word _ _ Hkm).
  assert (Hmn : m <> "")
    by exact (nonempty_by_length k m Hk (eq_ci_str_length _ _ Hkm)).
  rewrite (last_is_word_nonempty_word m false Hmn Hmw) in Hend.
  cbn [xorb] in Hend. apply negb_true_iff in Hend.
  rewrite next_is_word_head in Hend.
  destruct (run_split Js.is_word w m (render ts) r Hww Hmw Hts Hend E)
    as [-> ->].
  now split.
Qed.

Lemma single_match k w ts :
  k <> "" -> eq_ci_str k w = true ->
  valid (Word w :: ts) = true ->
  Js.match_bounded k false (w ++ render ts) = Some (render ts).
Proof.
  intros Hk Hkw Hv.
  destruct (word_token_shape _ _ Hv) as (Hw & Hww & _ & _ & Hts).
  apply match_bounded_complete; [exact Hkw| |].
  - now rewrite (head_word_app w (render ts) Hw Hww).
  - rewrite (last_is_word_nonempty_word w false Hw Hww).
    rewrite next_is_word_head, Hts. reflexivity.
Qed.

(** The pass of a one-word key, on tokens. *)
Lemma pass_single k v vt :
  k <> "" -> all_chars Js.is_word k = true -> render vt = v ->
  forall ts p,
    valid ts = true ->
    (starts_with_word ts = true -> p = false) ->
    Js.replace_scan k v p 0 (render ts) = render (flat_map (sub1 k vt) ts).
Proof.
  intros Hk Hkw Hvt.
  assert (Hk1 : Js.next_is_word k = true).
  { destruct k as [|c k']; [now destruct Hk|]. cbn in Hkw |- *.
    now apply andb_true_iff in Hkw as [-> _]. }
  induction ts as [|[w|g] ts IH]; intros p Hv Hp; [reflexivity| |].
  - rewrite (Hp eq_refl).
    destruct (word_token_shape _ _ Hv) as (Hw & Hww & Hs & Hvts & Hts).
    cbn [render text flat_map sub1].
    destruct (eq_ci_str k w) eqn:E.
    + rewrite (scan_match k v false w (render ts) Hk
                 (single_match k w ts Hk E Hv) E).
      rewrite render_app, Hvt. f_equal.
      apply IH; [exact Hvts|]. rewrite Hs. discriminate.
    + rewrite scan_word_no_match; [|exact Hww|].
      * cbn [app render text]. f_equal.
        apply IH; [exact Hvts|]. rewrite Hs. discriminate.
      * destruct (Js.match_bounded k false (w ++ render ts)) as [r|] eqn:M;
          [|reflexivity].
        destruct (single_match_inv k w ts r Hk Hkw Hv M). congruence.
  - destruct (gap_token_shape _ _ Hv) as (Hg & Hgw & Hs & Hvts & Hts).
    cbn [render text flat_map sub1 app].
    rewrite (scan_gap k v g p (render ts) Hk1 Hgw). f_equal.
    apply IH; [exact Hvts|]. intros _.
    now apply last_is_word_gap.
Qed.

End Passes.

Section TwoWordKeys.
Import Words.
Variables a b : string.
Hypothesis a_nonempty : a <> "".
Hypothesis b_nonempty : b <> "".
Hypothesis a_word : all_chars Js.is_word a = true.
Hypothesis b_word : all_chars Js.is_word b = true.

Local Abbreviation two_words := (Words.two_words a b).

Lemma two_words_nonempty : two_words <> "".
Proof. unfold Words.two_words. destruct a; [easy|discriminate]. Qed.

Lemma two_words_head : Js.next_is_word two_words = true.
Proof.
  unfold Words.two_words. destruct a as [|c a']; [easy|].
  cbn in a_word |- *.
  now apply andb_true_iff in a_word as [-> _].
Qed.

Lemma eq_ci_str_join x y :
  eq_ci_str a x = true -> eq_ci_str b y = true ->
  eq_ci_str two_words (x ++ String " " y) = true.
Proof.
  unfold Words.two_words. clear a_nonempty a_word. revert x.
  induction a as [|c a' IH]; intros [|d x]; cbn; try congruence.
  - intros _ ->. reflexivity.
  - intros H Hy. apply andb_true_iff in H as [-> Hx]. now apply IH.
Qed.

(** The two-word key matches at the start of a word exactly when that
    word is [a], one space follows, and then the word [b], up to case. *)
Lemma double_match_inv w ts r :
  valid (Word w :: ts) = true ->
  Js.match_bounded two_words false (w ++ render ts) = Some r ->
  exists y rest,
    ts = Gap " " :: Word y :: rest
    /\ eq_ci_str a w = true /\ eq_ci_str b y = true /\ r = render rest.
Proof.
  intros Hv Hm.
  destruct (word_token_shape _ _ Hv) as (Hw & Hww & Hs & Hvts & Hts).
  destruct (match_bounded_sound _ _ _ _ Hm) as (m & E & Hkm & Hend).
  destruct (eq_ci_str_app _ _ _ Hkm) as (m1 & m2' & -> & H1 & H2).
  destruct m2' as [|c m2]; [discriminate|]. cbn in H2.
  apply andb_true_iff in H2 as [Hc H2]. apply eq_ci_space in Hc. subst c.
  assert (Hm1 : all_chars Js.is_word m1 = true)
    by now rewrite (eq_ci_str_all_word _ _ H1).
  assert (Hm2 : all_chars Js.is_word m2 = true)
    by now rewrite (eq_ci_str_all_word _ _ H2).
  assert (Hm2n : m2 <> "")
    by exact (nonempty_by_length b m2 b_nonempty (eq_ci_str_length _ _ H2)).
  rewrite last_is_word_app in Hend. cbn [last_is_word] in Hend.
  rewrite (last_is_word_nonempty_word m2 _ Hm2n Hm2) in Hend.
  cbn [xorb] in Hend. apply negb_true_iff in Hend.
  rewrite next_is_word_head in Hend.
  rewrite string_app_assoc in E. cbn [append] in E.
  destruct (run_split Js.is_word w m1 (render ts) (String " " (m2 ++ r))
              Hww Hm1 Hts eq_refl E) as [-> Ets].
  destruct ts as [|[x|g] ts1]; [discriminate|discriminate|].
  destruct (gap_token_shape _ _ Hvts) as (Hg & Hgw & Hs1 & Hv1 & Hts1).
  cbn [render text] in Ets.
  assert (Hy : head_sat non_word (m2 ++ r) = false).
  { destruct m2 as [|d m2]; [easy|]. cbn in Hm2 |- *.
    apply andb_true_iff in Hm2 as [Hd _]. unfold non_word. now rewrite Hd. }
  change (String " " (m2 ++ r)) with (" " ++ (m2 ++ r)) in Ets.
  destruct (run_split non_word g " " (render ts1) (m2 ++ r)
              Hgw eq_refl Hts1 Hy Ets) as [-> E1].
  destruct ts1 as [|[y|g] rest].
  - destruct m2; [easy|discriminate].
  - destruct (word_token_shape _ _ Hv1) as (Hyn & Hyw & _ & _ & Hrest).
    cbn [render text] in E1.
    destruct (run_split Js.is_word y m2 (render rest) r
                Hyw Hm2 Hrest Hend E1) as [-> <-].
    now exists m2, rest.
  - discriminate.
Qed.

Lemma double_match w y rest :
  valid (Word w :: Gap " " :: Word y :: rest) = true ->
  eq_ci_str a w = true -> eq_ci_str b y = true ->
  Js.match_bounded two_words false
    ((w ++ String " " y) ++ render rest) = Some (render rest).
Proof.
  intros Hv Hw Hy.
  destruct (word_token_shape _ _ Hv) as (Hwn & Hww & _ & Hv1 & _).
  destruct (gap_token_shape _ _ Hv1) as (_ & _ & _ & Hv2 & _).
  destruct (word_token_shape _ _ Hv2) as (Hyn & Hyw & _ & _ & Hrest).
  apply match_bounded_complete.
  - now apply eq_ci_str_join.
  - rewrite string_app_assoc. now rewrite (head_word_app w _ Hwn Hww).
  - rewrite last_is_word_app. cbn [last_is_word].
    rewrite (last_is_word_nonempty_word y _ Hyn Hyw).
    rewrite next_is_word_head, Hrest. reflexivity.
Qed.

(** The pass of a two-word key, on tokens. *)
Lemma pass_double v vt :
  render vt = v ->
  forall n ts p,
    List.length ts <= n ->
    valid ts = true ->
    (starts_with_word ts = true -> p = false) ->
    Js.replace_scan two_words v p 0 (render ts)
    = render (join_words a b vt ts).
Proof.
  intros Hvt. induction n as [|n IH]; intros ts p Hn Hv Hp.
  { destruct ts; [reflexivity|cbn in Hn; lia]. }
  destruct ts as [|[w|g] ts]; [reflexivity| |].
  - rewrite (Hp eq_refl).
    destruct (word_token_shape _ _ Hv) as (Hw & Hww & Hs & Hvts & Hts).
    cbn [List.length] in Hn.
    destruct (Js.match_bounded two_words false (w ++ render ts))
      as [r|] eqn:M.
    + destruct (double_match_inv w ts r Hv M)
        as (y & rest & -> & Ha & Hb & ->).
      destruct (gap_token_shape _ _ Hvts) as (_ & _ & _ & Hv2 & _).
      destruct (word_token_shape _ _ Hv2) as (Hyn & Hyw & Hs2 & Hv3 & _).
      cbn [join_words]. rewrite Ha, Hb, String.eqb_refl. cbn [andb].
      assert (E : render (Word w :: Gap " " :: Word y :: rest)
                  = (w ++ String " " y) ++ render rest).
      { cbn. now rewrite string_app_assoc. }
      rewrite E. cbn [render text] in M.
      change (w ++ " " ++ y ++ render rest)
        with (w ++ String " " (y ++ render rest)) in M.
      assert (M' : Js.match_bounded two_words false
                     ((w ++ String " " y) ++ render rest)
                   = Some (render rest)).
      { rewrite string_app_assoc. exact M. }
      rewrite (scan_match two_words v false _ _ two_words_nonempty M'
                 (eq_ci_str_join w y Ha Hb)).
      rewrite render_app, Hvt. f_equal.
      apply IH; [cbn [List.length] in Hn; lia|exact Hv3|].
      rewrite Hs2. discriminate.
    + change (render (Word w :: ts)) with (w ++ render ts).
      rewrite scan_word_no_match; [|exact Hww|exact M].
      assert (J : join_words a b vt (Word w :: ts)
                  = Word w :: join_words a b vt ts).
      { destruct ts as [|[x|g] [|[y|g2] rest]]; try reflexivity.
        cbn [join_words].
        destruct (eq_ci_str a w && String.eqb g " " && eq_ci_str b y)
          eqn:C; [|reflexivity].
        apply andb_true_iff in C as [C Hb].
        apply andb_true_iff in C as [Ha Hg].
        apply String.eqb_eq in Hg. subst g.
        pose proof (double_match w y rest Hv Ha Hb) as M'.
        rewrite string_app_assoc in M'. cbn [render text] in M.
        change (w ++ " " ++ y ++ render rest)
          with (w ++ String " " (y ++ render rest)) in M.
        cbn [append] in M'. congruence. }
      rewrite J. cbn [render text]. f_equal.
      apply IH; [lia|exact Hvts|]. rewrite Hs. discriminate.
  - destruct (gap_token_shape _ _ Hv) as (Hg & Hgw & Hs & Hvts & Hts).
    cbn [List.length] in Hn.
    assert (J : join_words a b vt (Gap g :: ts)
                = Gap g :: join_words a b vt ts) by reflexivity.
    rewrite J. change (render (Gap g :: ts)) with (g ++ render ts).
    cbn [render text].
    rewrite (scan_gap two_words v g p (render ts) two_words_head Hgw).
    f_equal. apply IH; [lia|exact Hvts|]. intros _.
    now apply last_is_word_gap.
Qed.

End TwoWordKeys.

Section TokenMaps.
Import Words.

Lemma valid_word_app vt : forall ts,
  valid vt = true -> ends_with_word vt = true ->
  valid ts = true -> starts_with_word ts = false ->
  valid (vt ++ ts) = true.
Proof.
  induction vt as [|t vt IH]; intros ts Hv He Hts Hs; [discriminate|].
  destruct vt as [|u vt].
  - cbn in He, Hv |- *. rewrite He in Hv |- *.
    apply andb_true_iff in Hv as [Hv _]. apply andb_true_iff in Hv as [Ht _].
    now rewrite Ht, Hs, Hts.
  - cbn [valid app starts_with_word starts_with_gap] in Hv |- *.
    apply andb_true_iff in Hv as [Hv Hv']. rewrite Hv. cbn [andb].
    apply (IH ts); assumption.
Qed.

Section OneKey.
Variables (k : string) (vt : list token).
Hypothesis vt_valid : valid vt = true.
Hypothesis vt_starts : starts_with_word vt = true.
Hypothesis vt_ends : ends_with_word vt = true.

Lemma sub1_starts t ts :
  starts_with_word (sub1 k vt t ++ ts) = is_word_token t
  /\ starts_with_gap (sub1 k vt t ++ ts) = negb (is_word_token t).
Proof.
  destruct t as [w|g]; cbn; [|now split].
  destruct (eq_ci_str k w); [|now split].
  destruct vt as [|[x|g] vt']; try discriminate. now split.
Qed.

Lemma flat_map_sub1_starts ts :
  starts_with_word (flat_map (sub1 k vt) ts) = starts_with_word ts
  /\ starts_with_gap (flat_map (sub1 k vt) ts) = starts_with_gap ts.
Proof.
  destruct ts as [|t ts]; [now split|]. cbn [flat_map].
  destruct (sub1_starts t (flat_map (sub1 k vt) ts)) as [-> ->].
  now split.
Qed.

Lemma valid_flat_map_sub1 ts :
  valid ts = true -> valid (flat_map (sub1 k vt) ts) = true.
Proof.
  induction ts as [|[w|g] ts IH]; intros Hv; [reflexivity| |].
  - destruct (word_token_shape _ _ Hv) as (_ & _ & Hs & Hvts & _).
    destruct (flat_map_sub1_starts ts) as [Hs' _].
    cbn [flat_map sub1]. destruct (eq_ci_str k w).
    + apply valid_word_app; auto. now rewrite Hs'.
    + apply (valid_word_app [Word w]); auto.
      * cbn in Hv |- *. apply andb_true_iff in Hv as [Hv _].
        apply andb_true_iff in Hv as [-> _]. reflexivity.
      * now rewrite Hs'.
  - destruct (gap_token_shape _ _ Hv) as (_ & _ & Hs & Hvts & _).
    destruct (flat_map_sub1_starts ts) as [_ Hs'].
    cbn [flat_map sub1 app valid is_word_token] in Hv |- *.
    apply andb_true_iff in Hv as [Hv _]. apply andb_true_iff in Hv as [-> _].
    rewrite Hs', Hs. now rewrite IH.
Qed.

End OneKey.

Lemma flat_map_twice {A B C} (f : B -> list C) (g : A -> list B) l :
  flat_map f (flat_map g l) = flat_map (fun x => flat_map f (g x)) l.
Proof.
  induction l as [|x l IH]; [reflexivity|].
  cbn [flat_map]. now rewrite flat_map_app, IH.
Qed.

Lemma join_words_absent a b vt ts :
  no_word b ts = true -> join_words a b vt ts = ts.
Proof.
  induction ts as [|t ts IH]; [reflexivity|].
  intros H. cbn [no_word forallb] in H. apply andb_true_iff in H as [Ht H].
  assert (J : join_words a b vt (t :: ts) = t :: join_words a b vt ts).
  { destruct t as [x|g]; [|reflexivity].
    destruct ts as [|[x'|g] [|[y|g2] rest]]; try reflexivity.
    cbn [join_words]. cbn [forallb] in H.
    apply andb_true_iff in H as [_ H]. apply andb_true_iff in H as [Hy _].
    apply negb_true_iff in Hy. now rewrite Hy, andb_false_r. }
  rewrite J. f_equal. now apply IH.
Qed.

Lemma no_word_flat_map b (f : token -> list token) ts :
  (forall t, no_word b (f t) = true) -> no_word b (flat_map f ts) = true.
Proof.
  intros Hf. induction ts as [|t ts IH]; [reflexivity|].
  cbn [flat_map]. unfold no_word in *. now rewrite forallb_app, Hf, IH.
Qed.

Lemma hash_free_render ts : hash_free (render ts) = clean ts.
Proof.
  induction ts as [|t ts IH]; [reflexivity|].
  cbn [render clean forallb]. unfold hash_free in *.
  now rewrite all_chars_app, IH.
Qed.

Lemma clean_flat_map (f : token -> list token) ts :
  (forall t, hash_free (text t) = true -> clean (f t) = true) ->
  clean ts = true -> clean (flat_map f ts) = true.
Proof.
  intros Hf. induction ts as [|t ts IH]; [reflexivity|].
  cbn [flat_map clean forallb]. intros H.
  apply andb_true_iff in H as [Ht H].
  unfold clean in *. now rewrite forallb_app, (Hf t Ht), (IH H).
Qed.

Lemma clean_join_words a b vt :
  clean vt = true ->
  forall n ts, List.length ts <= n ->
               clean ts = true -> clean (join_words a b vt ts) = true.
Proof.
  intros Hvt. induction n as [|n IH]; intros ts Hn Hc.
  { destruct ts; [reflexivity|cbn in Hn; lia]. }
  destruct ts as [|t ts]; [reflexivity|].
  cbn [List.length] in Hn.
  assert (Hd : clean (t :: join_words a b vt ts) = true).
  { cbn [clean forallb] in Hc |- *. apply andb_true_iff in Hc as [-> Hc].
    apply IH; [lia|exact Hc]. }
  destruct t as [x|g]; [|exact Hd].
  destruct ts as [|[x'|g] [|[y|g2] rest]]; try exact Hd.
  cbn [join_words].
  destruct (eq_ci_str a x && String.eqb g " " && eq_ci_str b y);
    [|exact Hd].
  unfold clean. rewrite forallb_app. fold (clean vt). rewrite Hvt.
  apply IH; [cbn [List.length] in Hn; lia|].
  cbn [clean forallb] in Hc.
  apply andb_true_iff in Hc as [_ Hc]. apply andb_true_iff in Hc as [_ Hc].
  now apply andb_true_iff in Hc as [_ Hc].
Qed.

Lemma all_chars_impl (p q : ascii -> bool) s :
  (forall c, p c = true -> q c = true) ->
  all_chars p s = true -> all_chars q s = true.
Proof.
  intros Hpq. induction s as [|c s IH]; [reflexivity|].
  cbn. intros H. apply andb_true_iff in H as [Hc Hs].
  now rewrite (Hpq c Hc), (IH Hs).
Qed.

Lemma all_chars_trim_start p s :
  all_chars p s = true -> all_chars p (Js.trim_start s) = true.
Proof.
  induction s as [|c s IH]; [reflexivity|].
  intros H. cbn [Js.trim_start]. destruct (Js.is_space c); [|exact H].
  cbn in H. apply andb_true_iff in H as [_ H]. now apply IH.
Qed.

Lemma all_chars_trim_end p s :
  all_chars p s = true -> all_chars p (Js.trim_end s) = true.
Proof.
  induction s as [|c s IH]; [reflexivity|].
  cbn [all_chars Js.trim_end]. intros H.
  apply andb_true_iff in H as [Hc Hs]. specialize (IH Hs).
  destruct (Js.trim_end s) as [|d t].
  - destruct (Js.is_space c); [reflexivity|]. cbn. now rewrite Hc.
  - change (all_chars p (String c (String d t)))
      with (p c && all_chars p (String d t)).
    now rewrite Hc, IH.
Qed.

Lemma hash_free_trim s : hash_free s = true -> hash_free (Js.trim s) = true.
Proof.
  intros H. unfold hash_free, Js.trim.
  now apply all_chars_trim_end, all_chars_trim_start.
Qed.

End TokenMaps.

Section Assembly.
Import Words.

Lemma word_entries_ok : forallb word_entry word_entries = true.
Proof. vm_compute. reflexivity. Qed.

(** The passes of one-word entries on a string are their passes on its
    tokens. *)
Lemma apply_word_entries entries : forall ts,
  forallb word_entry entries = true ->
  valid ts = true ->
  apply_replacements entries (render ts)
  = render (expand_passes entries ts)
  /\ valid (expand_passes entries ts) = true.
Proof.
  induction entries as [|[k v] es IH]; intros ts He Hv; [now split|].
  cbn [forallb] in He. apply andb_true_iff in He as [Hkv Hes].
  unfold word_entry in Hkv. cbn [fst snd] in Hkv.
  apply andb_true_iff in Hkv as [Hkv Hends].
  apply andb_true_iff in Hkv as [Hkv Hstarts].
  apply andb_true_iff in Hkv as [Hkv Hvalid].
  apply andb_true_iff in Hkv as [Hk Hkw].
  assert (Hkn : k <> "") by (intros ->; discriminate).
  unfold apply_replacements, expand_passes in *. cbn [fold_left fst snd].
  unfold Js.replace_word.
  rewrite (pass_single k v (tokenize v) Hkn Hkw (render_tokenize v)
             ts false Hv (fun _ => eq_refl)).
  apply IH; [exact Hes|].
  now apply valid_flat_map_sub1.
Qed.

Lemma expand_passes_pointwise entries : forall ts,
  expand_passes entries ts
  = flat_map (fun t => expand_passes entries [t]) ts.
Proof.
  induction entries as [|[k v] es IH]; intros ts.
  - cbn. induction ts as [|t ts IHts]; [reflexivity|].
    cbn. now rewrite <- IHts.
  - unfold expand_passes in *. cbn [fold_left fst snd].
    rewrite IH, flat_map_twice. apply flat_map_ext. intros t.
    cbn [flat_map]. rewrite app_nil_r. now rewrite <- IH.
Qed.

Ltac by_keys w :=
  repeat match goal with
         | |- context [eq_ci_str ?k w] =>
             destruct (eq_ci_str k w) eqn:?;
             [reflexivity|cbn [flat_map sub1 app]]
         end.

Lemma expand_passes_token t :
  expand_passes word_entries [t] = expand t.
Proof.
  destruct t as [w|g]; [|reflexivity].
  unfold expand_passes, expand, word_entries, replacements.
  cbn [firstn fold_left find fst snd flat_map sub1 app].
  by_keys w. reflexivity.
Qed.

(** What [expand] does to a word: it is a key of the one-word entries, up
    to case, and becomes the tokens of that entry's value; or it is none
    of them and stays. *)
Lemma expand_word_cases w :
  (exists k v, In (k, v) word_entries /\ eq_ci_str k w = true
               /\ expand (Word w) = tokenize v)
  \/ ((forall k v, In (k, v) word_entries -> eq_ci_str k w = false)
      /\ expand (Word w) = [Word w]).
Proof.
  unfold expand.
  destruct (find (fun kv => eq_ci_str (fst kv) w) word_entries)
    as [[k v]|] eqn:F.
  - left. exists k, v. apply find_some in F as [Hin Hk]. now repeat split.
  - right. split; [|reflexivity]. intros k v Hin.
    exact (find_none _ _ F (k, v) Hin).
Qed.

Lemma expand_passes_expand ts :
  expand_passes word_entries ts = flat_map expand ts.
Proof.
  rewrite expand_passes_pointwise. apply flat_map_ext.
  intros t. apply expand_passes_token.
Qed.

Lemma expand_no_county_road t : no_word "CR" (expand t) = true.
Proof.
  destruct t as [w|g]; [|reflexivity].
  unfold expand, word_entries, replacements.
  cbn [firstn find fst snd].
  by_keys w. cbn [no_word forallb].
  match goal with H : eq_ci_str "CR" w = false |- _ => now rewrite H end.
Qed.

Lemma expand_clean t : hash_free (text t) = true -> clean (expand t) = true.
Proof.
  intros H. destruct t as [w|g]; [|cbn in *; now rewrite H].
  unfold expand, word_entries, replacements.
  cbn [firstn find fst snd].
  by_keys w. cbn in *. now rewrite H.
Qed.

End Assembly.

Section NormalizerClaim.
Import Words.

Lemma apply_replacements_app t1 t2 s :
  apply_replacements (t1 ++ t2) s
  = apply_replacements t2 (apply_replacements t1 s).
Proof. unfold apply_replacements. apply fold_left_app. Qed.

Lemma hash_absent s :
  hash_free s = true ->
  all_chars (fun c => negb (Js.eq_ci "#" c)) s = true.
Proof.
  apply all_chars_impl. intros c Hc. apply negb_true_iff in Hc.
  apply negb_true_iff. destruct (Js.eq_ci "#" c) eqn:E; [|reflexivity].
  apply eq_ci_hash in E. subst c. discriminate.
Qed.

(** C5, as stated, fails.  In "12 Us Hwy 290" the token [Hwy] is a whole
    word, and the output does not hold its expansion: the later entry of
    the table turns "Us Highway" into "US Hwy".  And [#] is matched
    between two word characters only: it stays in "Apt #5" and goes from
    "A#5". *)
Lemma hwy_after_us_is_not_expanded :
  normalizeAddress "12 Us Hwy 290" = "12 US Hwy 290"
  /\ String.index 0 "Highway" (normalizeAddress "12 Us Hwy 290") = None
  /\ normalizeAddress "Apt #5" = "Apt #5"
  /\ normalizeAddress "A#5" = "A5".
Proof. vm_compute. repeat split. Qed.

(** C5, amended: for every address without [#], the output is the trimmed
    address in which each whole word (a maximal run of letters, digits and
    underscores) that is one of Rd, Ln, Dr, St, Ave, Blvd, Hwy, CR, in any
    case, is replaced with its expansion, and in which then each
    "Us Highway" (the two words, in any case, one space apart) is replaced
    with "US Hwy"; every other word, so a word that only contains a token,
    as "Broadway", and all the text between the words are left as they
    are. *)
Theorem normalizeAddress_expands_whole_words :
  forall address,
    hash_free address = true ->
    normalizeAddress address = expand_words address.
Proof.
  intros address Hh. unfold normalizeAddress, expand_words.
  destruct address as [|c s]; [reflexivity|].
  cbn [Js.truthy_str negb].
  set (ts := tokenize (Js.trim (String c s))).
  assert (Hv : valid ts = true) by apply valid_tokenize.
  assert (Hc : clean ts = true).
  { rewrite <- hash_free_render. unfold ts. rewrite render_tokenize.
    now apply hash_free_trim. }
  rewrite <- (render_tokenize (Js.trim (String c s))). fold ts.
  change replacements
    with (word_entries
            ++ [("Vz CR", "Vz County Road"); ("Us Highway", "US Hwy");
                ("#", "")])%list.
  rewrite apply_replacements_app.
  destruct (apply_word_entries word_entries ts word_entries_ok Hv)
    as [-> Hv8].
  rewrite expand_passes_expand in *.
  set (ts8 := flat_map expand ts) in *.
  assert (Hc8 : clean ts8 = true)
    by (apply clean_flat_map; [exact expand_clean|exact Hc]).
  unfold apply_replacements. cbn [fold_left fst snd].
  unfold Js.replace_word.
  change "Vz CR" with (two_words "Vz" "CR").
  rewrite (pass_double "Vz" "CR" ltac:(discriminate) ltac:(discriminate)
             eq_refl eq_refl "Vz County Road" (tokenize "Vz County Road")
             eq_refl (List.length ts8) ts8 false (le_n _) Hv8
             (fun _ => eq_refl)).
  rewrite join_words_absent
    by (apply no_word_flat_map; exact expand_no_county_road).
  change "Us Highway" with (two_words "Us" "Highway").
  rewrite (pass_double "Us" "Highway" ltac:(discriminate) ltac:(discriminate)
             eq_refl eq_refl "US Hwy" (tokenize "US Hwy")
             eq_refl (List.length ts8) ts8 false (le_n _) Hv8
             (fun _ => eq_refl)).
  fold (us_highway ts8).
  apply (scan_absent "#" "" "#" ""); [reflexivity|].
  apply hash_absent. rewrite hash_free_render.
  unfold us_highway.
  apply (clean_join_words "Us" "Highway" (tokenize "US Hwy") eq_refl
           (List.length ts8) ts8 (le_n _) Hc8).
Qed.

(** An address with "Broadway" and "rd". *)
Lemma normalizeAddress_expands_whole_words_witness :
  normalizeAddress "12 Broadway rd, Houston"
  = expand_words "12 Broadway rd, Houston".
Proof.
  apply normalizeAddress_expands_whole_words. vm_compute. reflexivity.
Defined.

(** What [expand_words] gives on a few addresses. *)
Example expand_words_samples :
  expand_words "12 Broadway rd, Houston" = "12 Broadway Road, Houston"
  /\ expand_words "  7 CR 12, Vz CR 3 " = "7 County Road 12, Vz County Road 3"
  /\ expand_words "Dr. DR dr_x St." = "Drive. Drive dr_x Street."
  /\ expand_words "9 us hwy 290" = "9 US Hwy 290"
  /\ expand_words "Us  Highway" = "Us  Highway".
Proof. vm_compute. repeat split. Qed.

End NormalizerClaim.

(** * Further properties *)

(** ** The normalizer on every address *)

Section NormalizerComplete.
Import Words.

(** The pass of the entry [#]: it takes out the [#] between two word
    characters and nothing else. *)
Lemma scan_hash s : forall p,
  Js.replace_scan "#" "" p 0 s = strip_hash p s.
Proof.
  induction s as [|c s IH]; intros p; [reflexivity|].
  cbn [Js.replace_scan strip_hash].
  destruct (Ascii.eqb c "#") eqn:E.
  - apply Ascii.eqb_eq in E. subst c.
    unfold Js.match_bounded.
    change (Js.next_is_word (String "#" s)) with false.
    change (Js.match_ci "#" p (String "#" s)) with (Some (false, s)).
    destruct p; cbn [xorb andb].
    + destruct (Js.next_is_word s); cbn [String.length Nat.sub append].
      * apply IH.
      * now rewrite IH.
    + now rewrite IH.
  - assert (N : Js.match_bounded "#" p (String c s) = None).
    { unfold Js.match_bounded. cbn [Js.match_ci].
      destruct (Js.eq_ci "#" c) eqn:H.
      - apply eq_ci_hash in H. subst c. discriminate.
      - now destruct (xorb p (Js.next_is_word (String c s))). }
    rewrite N. cbn [andb]. now rewrite IH.
Qed.

(** The ten entries before [#], on every address. *)
Lemma normalizeAddress_before_hash address :
  normalizeAddress address = Js.replace_word "#" "" (expand_words address).
Proof.
  unfold normalizeAddress, expand_words.
  destruct address as [|c s]; [reflexivity|].
  cbn [Js.truthy_str negb].
  set (ts := tokenize (Js.trim (String c s))).
  assert (Hv : valid ts = true) by apply valid_tokenize.
  rewrite <- (render_tokenize (Js.trim (String c s))). fold ts.
  change replacements
    with (word_entries
            ++ [("Vz CR", "Vz County Road"); ("Us Highway", "US Hwy");
                ("#", "")])%list.
  rewrite apply_replacements_app.
  destruct (apply_word_entries word_entries ts word_entries_ok Hv)
    as [-> Hv8].
  rewrite expand_passes_expand in *.
  set (ts8 := flat_map expand ts) in *.
  unfold apply_replacements. cbn [fold_left fst snd].
  unfold Js.replace_word at 2 3.
  change "Vz CR" with (two_words "Vz" "CR").
  rewrite (pass_double "Vz" "CR" ltac:(discriminate) ltac:(discriminate)
             eq_refl eq_refl "Vz County Road" (tokenize "Vz County Road")
             eq_refl (List.length ts8) ts8 false (le_n _) Hv8
             (fun _ => eq_refl)).
  rewrite join_words_absent
    by (apply no_word_flat_map; exact expand_no_county_road).
  change "Us Highway" with (two_words "Us" "Highway").
  rewrite (pass_double "Us" "Highway" ltac:(discriminate) ltac:(discriminate)
             eq_refl eq_refl "US Hwy" (tokenize "US Hwy")
             eq_refl (List.length ts8) ts8 false (le_n _) Hv8
             (fun _ => eq_refl)).
  reflexivity.
Qed.

(** X1: on every address, [normalizeAddress] gives the text in which the
    words of the table are expanded (and "Us Highway" shortened), and from
    which then each [#] that stands between two word characters is taken
    out; a [#] elsewhere stays. *)
Theorem normalizeAddress_on_every_address :
  forall address,
    normalizeAddress address = strip_hash false (expand_words address).
Proof.
  intros address. rewrite normalizeAddress_before_hash.
  unfold Js.replace_word. apply scan_hash.
Qed.

Lemma strip_hash_absent s : forall p,
  hash_free s = true -> strip_hash p s = s.
Proof.
  induction s as [|c s IH]; intros p; [reflexivity|].
  unfold hash_free. cbn [all_chars strip_hash]. intros H.
  apply andb_true_iff in H as [Hc Hs]. apply negb_true_iff in Hc.
  rewrite Hc. cbn [andb]. f_equal. now apply IH.
Qed.

Lemma flat_map_expand_plain ts :
  forallb (fun kv => no_word (fst kv) ts) word_entries = true ->
  flat_map expand ts = ts.
Proof.
  induction ts as [|t ts IH]; intros H; [reflexivity|].
  cbn [flat_map].
  assert (Ht : expand t = [t]).
  { destruct t as [w|g]; [|reflexivity]. unfold expand.
    destruct (find (fun kv => eq_ci_str (fst kv) w) word_entries)
      as [[k v]|] eqn:F; [|reflexivity].
    apply find_some in F as [Hin Hk]. cbn [fst] in Hk.
    rewrite forallb_forall in H. specialize (H (k, v) Hin).
    cbn [fst no_word forallb] in H. rewrite Hk in H. discriminate. }
  rewrite Ht. cbn [app]. f_equal. apply IH.
  rewrite forallb_forall in H |- *. intros kv Hin.
  specialize (H kv Hin). cbn [no_word forallb] in H.
  now apply andb_true_iff in H as [_ H].
Qed.

(** X2: an address without [#] in which no word is a key of the table
    (Rd, Ln, Dr, St, Ave, Blvd, Hwy, CR) or the word "Highway", in any
    case, is only trimmed. *)
Theorem normalizeAddress_plain_address :
  forall address,
    hash_free address = true ->
    forallb (fun kv => no_word (fst kv) (tokenize (Js.trim address)))
            word_entries = true ->
    no_word "Highway" (tokenize (Js.trim address)) = true ->
    normalizeAddress address = Js.trim address.
Proof.
  intros address Hh Hk Hw.
  rewrite normalizeAddress_before_hash. unfold expand_words.
  rewrite (flat_map_expand_plain _ Hk). unfold us_highway.
  rewrite (join_words_absent _ _ _ _ Hw), render_tokenize.
  unfold Js.replace_word. rewrite scan_hash.
  apply strip_hash_absent. now apply hash_free_trim.
Qed.

(** "1200 Broadway Blvdx" has no word of the table. *)
Lemma normalizeAddress_plain_address_witness :
  normalizeAddress "  1200 Broadway Blvdx, Austin TX " 
  = Js.trim "  1200 Broadway Blvdx, Austin TX ".
Proof.
  apply normalizeAddress_plain_address; vm_compute; reflexivity.
Defined.

End NormalizerComplete.

(** ** The escaped description *)

Section EscapingMore.
Import Component.

Lemma escaped_plain_char c :
  escape_sensitive c = false -> escape_passes (Js.str1 c) = Js.str1 c.
Proof.
  destruct c as [[] [] [] [] [] [] [] []]; vm_compute; intros H;
    congruence.
Qed.


Lemma append_empty (a b : string) : a ++ b = "" <-> a = "" /\ b = "".
Proof.
  destruct a; cbn; split; try tauto; try discriminate.
  intros [H _]. discriminate.
Qed.


(** X3: a description without backslash, quote, backtick, line feed and
    carriage return comes back from [escapeHtml] as it is; in particular
    its [<] and [>] are kept. *)
Theorem escapeHtml_plain_text :
  forall s,
    s <> "" ->
    Words.all_chars (fun c => negb (escape_sensitive c)) s = true ->
    escapeHtml s = s.
Proof.
  intros s Hs H. destruct s as [|c s]; [now destruct Hs|].
  rewrite escapeHtml_passes. clear Hs. revert H.
  generalize (String c s). clear c s.
  induction s as [|c s IH]; [reflexivity|].
  cbn [Words.all_chars]. intros H. apply andb_true_iff in H as [Hc Hs].
  apply negb_true_iff in Hc.
  now rewrite escape_passes_cons, (escaped_plain_char c Hc), (IH Hs).
Qed.

Lemma escapeHtml_plain_text_witness :
  escapeHtml "3 bed <b>ranch</b>, 2.5 bath" = "3 bed <b>ranch</b>, 2.5 bath".
Proof.
  apply escapeHtml_plain_text; [discriminate|vm_compute; reflexivity].
Defined.


End EscapingMore.

(** ** The pass as a whole *)

Section PassAccounts.
Import Component Resolution Accounts.
Variable w : World.

Lemma finish_bounds msg s : bounds (finish msg s) = bounds s.
Proof.
  unfold finish. destruct (0 <? successCount s)%nat; [|reflexivity].
  apply fit_frame.
Qed.

(** One step of the nested loop, read off [resolve]. *)
Lemma nested_step_resolved s e :
  skippedHouses (Nested.step w s e) = (skippedHouses s ++ skip_of e)%list
  /\ successCount (Nested.step w s e)
     = successCount s + List.length (placed_at w e)
  /\ bounds (Nested.step w s e) = (bounds s ++ placed_at w e)%list.
Proof.
  destruct e as [zpid hd].
  unfold Nested.step, skip_of, placed_at, resolve. cbn [fst].
  destruct (Nested.address_parts (Nested.property hd)) as [parts|];
    [|cbn; now rewrite Nat.add_0_r, !app_nil_r].
  destruct (Nested.property hd) as [house|];
    [|cbn; now rewrite Nat.add_0_r, !app_nil_r].
  destruct (Nested.embedded_coords house) as [c|];
    [|cbn; now rewrite Nat.add_0_r, !app_nil_r].
  unfold place.
  destruct (construct w zpid); cbn;
    rewrite ?Nat.add_0_r, ?app_nil_r, ?Nat.add_1_r; now repeat split.
Qed.

Lemma nested_loop_resolved hs : forall s,
  skippedHouses (Nested.loop w hs s)
  = (skippedHouses s ++ flat_map skip_of hs)%list
  /\ successCount (Nested.loop w hs s)
     = successCount s + List.length (flat_map (placed_at w) hs)
  /\ bounds (Nested.loop w hs s)
     = (bounds s ++ flat_map (placed_at w) hs)%list.
Proof.
  unfold Nested.loop. induction hs as [|e hs IH]; intros s.
  - cbn. now rewrite Nat.add_0_r, !app_nil_r.
  - cbn [fold_left flat_map].
    destruct (IH (Nested.step w s e)) as (-> & -> & ->).
    destruct (nested_step_resolved s e) as (-> & -> & ->).
    rewrite length_app, Nat.add_assoc, <- !app_assoc. now repeat split.
Qed.

(** X5: the outcome of a nested pass over at least one listing, listing
    by listing: the skip list holds, in the order of the pass, the record
    of each listing that lacks an address component or a truthy
    coordinate; the bounds hold the coordinate of each other listing
    whose placement went through, and [successCount] is their number.
    What one listing gets does not depend on the others, nor on what the
    component held before. *)
Theorem nested_pass_listing_by_listing :
  forall (st : State) entry rest,
    let st' := Nested.addHousesToMap w (entry :: rest) st in
    skippedHouses st' = flat_map skip_of (entry :: rest)
    /\ bounds st' = flat_map (placed_at w) (entry :: rest)
    /\ successCount st' = List.length (flat_map (placed_at w) (entry :: rest)).
Proof.
  intros st entry rest st'. subst st'. unfold Nested.addHousesToMap.
  destruct (finish_aggregate "No houses could be displayed on the map."
              (Nested.loop w (entry :: rest) (reset st)))
    as (-> & -> & _).
  rewrite finish_bounds.
  destruct (nested_loop_resolved (entry :: rest) (reset st))
    as (-> & -> & ->).
  now repeat split.
Qed.

Ltac books :=
  cbn [successCount skippedHouses bounds markers push_skip push_marker
       count_success push_request reset];
  rewrite ?length_app; cbn [List.length]; try lia.

(** What holds of the state after [n] listings holds after the loop, when
    a placement and a skip keep it for one listing more and a request
    keeps it. *)
Section LoopInduction.
Variable P : nat -> State -> Prop.
Hypothesis P_place : forall n k c t s, P n s -> P (S n) (place w k c t s).
Hypothesis P_skip : forall n r s, P n s -> P (S n) (push_skip r s).
Hypothesis P_request : forall n a s, P n s -> P n (push_request a s).

Lemma nested_step_keeps n s e : P n s -> P (S n) (Nested.step w s e).
Proof.
  intros H. destruct e as [zpid hd]. unfold Nested.step.
  destruct (Nested.address_parts (Nested.property hd)) as [parts|];
    [|now apply P_skip].
  destruct (Nested.property hd) as [house|]; [|now apply P_skip].
  destruct (Nested.embedded_coords house) as [c|];
    [now apply P_place|now apply P_skip].
Qed.

Lemma flat_step_keeps n s e : P n s -> P (S n) (Flat.step w s e).
Proof.
  intros H. destruct e as [mlsId [[a|]]]; unfold Flat.step;
    cbn [Flat.h_address]; [|now apply P_skip].
  destruct (Js.truthy_str a); [|now apply P_skip].
  unfold Flat.geocodeAddress.
  destruct (geocode w _ _) as [| |[|c rs]];
    try (apply P_skip; apply P_request; exact H).
  apply P_place. apply P_request. exact H.
Qed.

Lemma nested_loop_keeps hs : forall n s,
  P n s -> P (List.length hs + n) (Nested.loop w hs s).
Proof.
  unfold Nested.loop. induction hs as [|e hs IH]; intros n s H; [exact H|].
  cbn [fold_left List.length].
  replace (S (List.length hs) + n) with (List.length hs + S n) by lia.
  apply IH. now apply nested_step_keeps.
Qed.

Lemma flat_loop_keeps hs : forall n s,
  P n s -> P (List.length hs + n) (Flat.loop w hs s).
Proof.
  unfold Flat.loop. induction hs as [|e hs IH]; intros n s H; [exact H|].
  cbn [fold_left List.length].
  replace (S (List.length hs) + n) with (List.length hs + S n) by lia.
  apply IH. now apply flat_step_keeps.
Qed.

End LoopInduction.

Lemma place_tally m0 n k c t s :
  tally m0 n s -> tally m0 (S n) (place w k c t s).
Proof.
  intros (H1 & H2 & ms & H3 & H4 & H5). unfold place, tally.
  destruct (construct w k).
  - split; [lia|split; [exact H2|]]. exists ms. split; [exact H3|lia].
  - split; [books|split; [exact H2|]].
    eexists. split; [books; rewrite H3, <- app_assoc; reflexivity|].
    split; books.
  - split; [books|split; [books|]].
    eexists. split; [books; rewrite H3, <- app_assoc; reflexivity|].
    split; books.
Qed.

Lemma skip_tally m0 n r s : tally m0 n s -> tally m0 (S n) (push_skip r s).
Proof.
  intros (H1 & H2 & ms & H3 & H4 & H5). unfold tally.
  split; [books|split; [exact H2|]].
  exists ms. split; [exact H3|]. split; books.
Qed.

Lemma place_settled n k c t s :
  construct w k = Placed -> settled n s -> settled (S n) (place w k c t s).
Proof. unfold place, settled. intros -> H. books. Qed.

Lemma skip_settled n r s : settled n s -> settled (S n) (push_skip r s).
Proof. unfold settled. intros H. books. Qed.

Lemma place_tight m0 k c t s :
  construct w k <> ListenerThrows -> tight m0 s -> tight m0 (place w k c t s).
Proof.
  intros Hk (ms & H3 & H4). unfold place, tight.
  destruct (construct w k); [now exists ms|congruence|].
  eexists. split; [books; rewrite H3, <- app_assoc; reflexivity|books].
Qed.

Lemma reset_tally st : tally (markers st) 0 (reset st).
Proof.
  unfold tally. split; [books|split; [books|]].
  exists []. rewrite app_nil_r. split; [reflexivity|split; books].
Qed.

Lemma reset_tight st : tight (markers st) (reset st).
Proof. exists []. rewrite app_nil_r. split; [reflexivity|books]. Qed.

Lemma finish_tally msg m0 n s : tally m0 n s -> tally m0 n (finish msg s).
Proof.
  intros H. unfold tally.
  destruct (finish_aggregate msg s) as (-> & -> & -> & _).
  now rewrite finish_bounds.
Qed.

(** X6: every listing of a pass is accounted for at most once: the
    successes and the skip records together are no more than the
    listings, in both variants; and when no placement throws they are
    exactly as many, so that each listing is either counted or in the
    skip list. *)
Theorem listings_accounted_for :
  forall (st : State),
    (forall entry rest,
        let st' := Nested.addHousesToMap w (entry :: rest) st in
        successCount st' + List.length (skippedHouses st')
        <= List.length (entry :: rest)
        /\ ((forall k, construct w k = Placed) ->
            successCount st' + List.length (skippedHouses st')
            = List.length (entry :: rest)))
    /\ (forall entry rest,
           let st' := Flat.addHousesToMap w (entry :: rest) st in
           successCount st' + List.length (skippedHouses st')
           <= List.length (entry :: rest)
           /\ ((forall k, construct w k = Placed) ->
               successCount st' + List.length (skippedHouses st')
               = List.length (entry :: rest))).
Proof.
  intros st. split; intros entry rest st'; subst st'.
  - unfold Nested.addHousesToMap.
    destruct (finish_aggregate "No houses could be displayed on the map."
                (Nested.loop w (entry :: rest) (reset st)))
      as (-> & -> & _).
    split.
    + pose proof (nested_loop_keeps (tally (markers st))
                    (place_tally (markers st)) (skip_tally (markers st))
                    (entry :: rest) 0
                    (reset st) (reset_tally st)) as (H & _).
      now rewrite Nat.add_0_r in H.
    + intros Hk.
      pose proof (nested_loop_keeps settled
                    (fun n k c t s => place_settled n k c t s (Hk k))
                    skip_settled (entry :: rest) 0
                    (reset st) eq_refl) as H.
      unfold settled in H. now rewrite Nat.add_0_r in H.
  - unfold Flat.addHousesToMap.
    destruct (finish_aggregate
                "No houses could be geocoded and displayed on the map."
                (Flat.loop w (entry :: rest) (reset st)))
      as (-> & -> & _).
    split.
    + pose proof (flat_loop_keeps (tally (markers st))
                    (place_tally (markers st)) (skip_tally (markers st))
                  (fun _ _ _ H => H) (entry :: rest) 0
                    (reset st) (reset_tally st)) as (H & _).
      now rewrite Nat.add_0_r in H.
    + intros Hk.
      pose proof (flat_loop_keeps settled
                    (fun n k c t s => place_settled n k c t s (Hk k))
                    skip_settled (fun _ _ _ H => H) (entry :: rest) 0
                    (reset st) eq_refl) as H.
      unfold settled in H. now rewrite Nat.add_0_r in H.
Qed.

(** X7: in both variants a pass over at least one listing only adds
    markers to those the component held, at least one per success and at
    most one per listing that is not skipped, and exactly one per success
    when no placement throws after its marker is built; and the bounds
    handed to [fitBounds] hold exactly one coordinate per success. *)
Theorem markers_and_bounds_of_pass :
  forall (st : State),
    (forall entry rest,
        let st' := Nested.addHousesToMap w (entry :: rest) st in
        List.length (bounds st') = successCount st'
        /\ (exists ms,
               markers st' = (markers st ++ ms)%list
               /\ successCount st' <= List.length ms
               /\ List.length ms + List.length (skippedHouses st')
                  <= List.length (entry :: rest))
        /\ ((forall k, construct w k <> ListenerThrows) ->
            exists ms, markers st' = (markers st ++ ms)%list
                       /\ List.length ms = successCount st'))
    /\ (forall entry rest,
           let st' := Flat.addHousesToMap w (entry :: rest) st in
           List.length (bounds st') = successCount st'
           /\ (exists ms,
                  markers st' = (markers st ++ ms)%list
                  /\ successCount st' <= List.length ms
                  /\ List.length ms + List.length (skippedHouses st')
                     <= List.length (entry :: rest))
           /\ ((forall k, construct w k <> ListenerThrows) ->
               exists ms, markers st' = (markers st ++ ms)%list
                          /\ List.length ms = successCount st')).
Proof.
  intros st. split; intros entry rest st'; subst st'.
  - unfold Nested.addHousesToMap.
    pose proof (nested_loop_keeps (tally (markers st))
                  (place_tally (markers st)) (skip_tally (markers st))
                  (entry :: rest) 0
                  (reset st) (reset_tally st)) as H.
    rewrite Nat.add_0_r in H.
    apply (finish_tally "No houses could be displayed on the map.") in H.
    destruct H as (_ & H2 & H3). split; [exact H2|split; [exact H3|]].
    intros Hk.
    pose proof (nested_loop_keeps (fun _ => tight (markers st))
                  (fun n k c t s => place_tight (markers st) k c t s (Hk k))
                  (fun _ _ _ H => H) (entry :: rest) 0
                  (reset st) (reset_tight st)) as (ms & Hm & Hl).
    destruct (finish_aggregate "No houses could be displayed on the map."
                (Nested.loop w (entry :: rest) (reset st)))
      as (-> & _ & -> & _).
    now exists ms.
  - unfold Flat.addHousesToMap.
    pose proof (flat_loop_keeps (tally (markers st))
                  (place_tally (markers st)) (skip_tally (markers st))
                  (fun _ _ _ H => H) (entry :: rest) 0
                  (reset st) (reset_tally st)) as H.
    rewrite Nat.add_0_r in H.
    apply (finish_tally
             "No houses could be geocoded and displayed on the map.") in H.
    destruct H as (_ & H2 & H3). split; [exact H2|split; [exact H3|]].
    intros Hk.
    pose proof (flat_loop_keeps (fun _ => tight (markers st))
                  (fun n k c t s => place_tight (markers st) k c t s (Hk k))
                  (fun _ _ _ H => H) (fun _ _ _ H => H) (entry :: rest) 0
                  (reset st) (reset_tight st)) as (ms & Hm & Hl).
    destruct (finish_aggregate
                "No houses could be geocoded and displayed on the map."
                (Flat.loop w (entry :: rest) (reset st)))
      as (-> & _ & -> & _).
    now exists ms.
Qed.

End PassAccounts.

Section PassAccountsAt.
Import Component.

(** Both theorems at a pass of two listings of which the second lacks
    its coordinate: one success, one skip, one marker. *)
Lemma listings_accounted_for_witness :
  let st' := Nested.addHousesToMap Samples.world_ok
               [("h1", Samples.house_ok); ("h2", Samples.house_no_coords)]
               setup in
  successCount st' + List.length (skippedHouses st') = 2.
Proof.
  refine (proj2 (proj1 (listings_accounted_for Samples.world_ok setup)
                   ("h1", Samples.house_ok)
                   [("h2", Samples.house_no_coords)]) _).
  intros k. reflexivity.
Defined.

Lemma markers_and_bounds_of_pass_witness :
  let st' := Nested.addHousesToMap Samples.world_ok
               [("h1", Samples.house_ok); ("h2", Samples.house_no_coords)]
               setup in
  exists ms, markers st' = (markers setup ++ ms)%list
             /\ List.length ms = successCount st'.
Proof.
  refine (proj2 (proj2 (proj1 (markers_and_bounds_of_pass Samples.world_ok
                                 setup)
                          ("h1", Samples.house_ok)
                          [("h2", Samples.house_no_coords)])) _).
  intros k. discriminate.
Defined.

End PassAccountsAt.

Section FlatPass.
Import Component Resolution.
Variable w : World.
Hypothesis always_found :
  forall i a, exists c rs, geocode w i a = Results (c :: rs).
Hypothesis never_throws : forall k, construct w k = Placed.

Lemma flat_step_found s e :
  skippedHouses (Flat.step w s e) = (skippedHouses s ++ unaddressed [e])%list
  /\ successCount (Flat.step w s e)
     = successCount s + List.length (Flat.usable_addresses [e])
  /\ map title (markers (Flat.step w s e))
     = (map title (markers s) ++ Flat.usable_addresses [e])%list.
Proof.
  destruct e as [mlsId [[a|]]];
    unfold Flat.step, unaddressed, Flat.usable_addresses;
    cbn [Flat.h_address flat_map fst snd];
    [|cbn; now rewrite Nat.add_0_r, !app_nil_r].
  destruct (Js.truthy_str a);
    [|cbn; now rewrite Nat.add_0_r, !app_nil_r].
  unfold Flat.geocodeAddress.
  destruct (always_found (List.length (requests s)) (normalizeAddress a))
    as (c & rs & ->).
  unfold place. rewrite never_throws.
  cbn. rewrite map_app, app_nil_r, Nat.add_1_r. now repeat split.
Qed.

Lemma flat_loop_found hs : forall s,
  skippedHouses (Flat.loop w hs s) = (skippedHouses s ++ unaddressed hs)%list
  /\ successCount (Flat.loop w hs s)
     = successCount s + List.length (Flat.usable_addresses hs)
  /\ map title (markers (Flat.loop w hs s))
     = (map title (markers s) ++ Flat.usable_addresses hs)%list.
Proof.
  unfold Flat.loop. induction hs as [|e hs IH]; intros s.
  - cbn. now rewrite Nat.add_0_r, !app_nil_r.
  - cbn [fold_left].
    destruct (IH (Flat.step w s e)) as (-> & -> & ->).
    destruct (flat_step_found s e) as (-> & -> & ->).
    change (e :: hs) with ([e] ++ hs)%list.
    unfold unaddressed, Flat.usable_addresses.
    rewrite !flat_map_app, !length_app, <- !app_assoc, Nat.add_assoc.
    now repeat split.
Qed.

End FlatPass.

(** X8: in the flat variant, when every lookup returns at least one result
    and no placement throws, a pass over at least one listing places
    every listing that has a non-empty address, with that address as it
    came, not normalized, as the title of its marker, in the order of the
    pass; [successCount] is their number, and the skip list holds exactly
    the listings without address, each with the text "No address". *)
Theorem flat_pass_places_every_addressed_listing :
  forall (w : Component.World) (st : Component.State) entry rest,
    (forall i a, exists c rs,
          Component.geocode w i a = Component.Results (c :: rs)) ->
    (forall k, Component.construct w k = Component.Placed) ->
    let st' := Flat.addHousesToMap w (entry :: rest) st in
    Component.successCount st'
    = List.length (Flat.usable_addresses (entry :: rest))
    /\ Component.skippedHouses st' = Resolution.unaddressed (entry :: rest)
    /\ map Component.title (Component.markers st')
       = (map Component.title (Component.markers st)
          ++ Flat.usable_addresses (entry :: rest))%list.
Proof.
  intros w st entry rest Hg Hk st'. subst st'. unfold Flat.addHousesToMap.
  destruct (finish_aggregate
              "No houses could be geocoded and displayed on the map."
              (Flat.loop w (entry :: rest) (Component.reset st)))
    as (-> & -> & -> & _).
  destruct (flat_loop_found w Hg Hk (entry :: rest) (Component.reset st))
    as (-> & -> & ->).
  now repeat split.
Qed.

Lemma flat_pass_places_every_addressed_listing_witness :
  let st' :=
    Flat.addHousesToMap Samples.world_ok
      [("m1", Samples.flat_house "12 Main St");
       ("m2", {| Flat.h_address := None |})] Component.setup in
  Component.successCount st' = 1
  /\ Component.skippedHouses st'
     = [ {| Component.key := "m2"; Component.address := "No address" |} ]
  /\ map Component.title (Component.markers st') = ["12 Main St"].
Proof.
  refine (flat_pass_places_every_addressed_listing Samples.world_ok
            Component.setup ("m1", Samples.flat_house "12 Main St")
            [("m2", {| Flat.h_address := None |})] _ _).
  - intros i a. exists Samples.houston, []. reflexivity.
  - intros k. reflexivity.
Defined.

Section Messages.
Import Component.
Variable w : World.

Lemma flat_loop_error hs s : error (Flat.loop w hs s) = error s.
Proof.
  apply (flat_loop_keeps w (fun _ s' => error s' = error s)
           (fun n k c t s' H => eq_trans (place_error w k c t s') H)
           (fun _ _ _ H => H) (fun _ _ _ H => H) hs 0 s eq_refl).
Qed.

Lemma finish_error msg s :
  error (finish msg s) = error s \/ error (finish msg s) = msg.
Proof.
  unfold finish. destruct (0 <? successCount s)%nat; [left|now right].
  apply fit_frame.
Qed.

(** X9: a pass never clears the message of the component: afterwards it
    is the message there was, or one of the two messages of the pass
    ("No houses provided. ..." for an empty collection, the "No houses
    could be ..." of the variant when nothing was placed); so a message
    set before the pass, as the one of a failed map set-up, is still
    shown or is replaced by one of these, in both variants. *)
Theorem pass_never_clears_message :
  forall (st : State),
    (forall houseEntries,
        let st' := Nested.addHousesToMap w houseEntries st in
        (error st' = error st
         \/ error st' = "No houses provided. Please check the data source."
         \/ error st' = "No houses could be displayed on the map.")
        /\ (Js.truthy_str (error st) = true ->
            Js.truthy_str (error st') = true))
    /\ (forall houseEntries,
           let st' := Flat.addHousesToMap w houseEntries st in
           (error st' = error st
            \/ error st' = "No houses provided. Please check the data source."
            \/ error st'
               = "No houses could be geocoded and displayed on the map.")
           /\ (Js.truthy_str (error st) = true ->
               Js.truthy_str (error st') = true)).
Proof.
  intros st. split; intros [|e hs] st'; subst st'.
  - split; [right; left; reflexivity|reflexivity].
  - unfold Nested.addHousesToMap.
    destruct (finish_error "No houses could be displayed on the map."
                (Nested.loop w (e :: hs) (reset st))) as [-> | ->].
    + destruct (nested_loop_frame w (e :: hs) (reset st)) as [_ ->].
      split; [now left|auto].
    + split; [right; right; reflexivity|reflexivity].
  - split; [right; left; reflexivity|reflexivity].
  - unfold Flat.addHousesToMap.
    destruct (finish_error
                "No houses could be geocoded and displayed on the map."
                (Flat.loop w (e :: hs) (reset st))) as [-> | ->].
    + rewrite flat_loop_error. split; [now left|auto].
    + split; [right; right; reflexivity|reflexivity].
Qed.

End Messages.

(** A component whose map set-up failed, then a pass that places one
    listing: the message of the set-up is still there. *)
Lemma pass_never_clears_message_witness :
  Js.truthy_str
    (Component.error
       (Nested.addHousesToMap Samples.world_ok [("h1", Samples.house_ok)]
          (Component.set_error
             "Map container not found. Please check the page structure."
             Component.setup))) = true.
Proof.
  refine (proj2 (proj1 (pass_never_clears_message Samples.world_ok
                          (Component.set_error
             "Map container not found. Please check the page structure."
             Component.setup))
                   [("h1", Samples.house_ok)]) _).
  reflexivity.
Defined.

(** ** The description toggle *)

Section ToggleFacts.
Import Toggle.

(** X10: whatever the popup looked like, after [toggleDescription] its
    three attributes agree: the text is shown, the button reads
    "Hide Details" and [aria-expanded] is "true", or the text is hidden,
    the button reads "View Details" and [aria-expanded] is "false"; the
    text is shown exactly when it was hidden by [display: none] before;
    and from then on two more calls give the same popup back.  The popup
    as built comes back after two calls. *)
Theorem toggleDescription_flips :
  forall p : Popup,
    let q := toggleDescription p in
    ((display q = "block" /\ textContent q = "Hide Details"
      /\ ariaExpanded q = "true")
     \/ (display q = "none" /\ textContent q = "View Details"
         /\ ariaExpanded q = "false"))
    /\ (display q = "block" <-> display p = "none")
    /\ toggleDescription (toggleDescription q) = q
    /\ toggleDescription (toggleDescription built) = built.
Proof.
  intros p q. subst q. unfold toggleDescription.
  destruct (String.eqb (display p) "none") eqn:E; cbn.
  - apply String.eqb_eq in E.
    split; [left; now repeat split|]. split; [tauto|now split].
  - apply String.eqb_neq in E.
    split; [right; now repeat split|]. split; [|now split].
    split; [discriminate|tauto].
Qed.

End ToggleFacts.

(** ** Life cycle *)

Section LifecycleFacts.
Import Component Lifecycle.
Variable w : World.

Lemma nested_pass_keeps_message hs s :
  Js.truthy_str (error s) = true ->
  Js.truthy_str (error (Nested.addHousesToMap w hs s)) = true.
Proof.
  intros H. destruct hs as [|e hs]; [reflexivity|].
  unfold Nested.addHousesToMap.
  destruct (finish_error "No houses could be displayed on the map."
              (Nested.loop w (e :: hs) (reset s))) as [-> | ->];
    [|reflexivity].
  now destruct (nested_loop_frame w (e :: hs) (reset s)) as [_ ->].
Qed.

Lemma flat_pass_keeps_message hs s :
  Js.truthy_str (error s) = true ->
  Js.truthy_str (error (Flat.addHousesToMap w hs s)) = true.
Proof.
  intros H. destruct hs as [|e hs]; [reflexivity|].
  unfold Flat.addHousesToMap.
  destruct (finish_error
              "No houses could be geocoded and displayed on the map."
              (Flat.loop w (e :: hs) (reset s))) as [-> | ->];
    [|reflexivity].
  now rewrite flat_loop_error.
Qed.

Lemma loading_banner (options : MapOptions) (pass : State -> State)
  (p : Page) :
  (forall s, Js.truthy_str (error s) = true ->
             Js.truthy_str (error (pass s)) = true) ->
  shows_loading (mounted options pass p)
  = has_key p && negb (settles (sdk p)).
Proof.
  intros Hpass. unfold mounted, onMounted, created, shows_loading.
  destruct (has_key p); [|reflexivity]. cbn [negb andb].
  destruct (sdk p); cbn [settles negb]; try reflexivity.
  - unfold initMap. destruct (mapElement p); cbn [negb].
    + destruct (mapConstructorThrows p); [|reflexivity].
      cbn [with_state with_error mapLoaded st negb andb].
      now rewrite Hpass.
    + cbn [with_state with_error mapLoaded st negb andb].
      now rewrite Hpass.
  - unfold initMap. destruct (mapElement p); cbn [negb].
    + destruct (mapConstructorThrows p); [|reflexivity].
      cbn [with_state with_error mapLoaded st negb andb].
      now rewrite Hpass.
    + cbn [with_state with_error mapLoaded st negb andb].
      now rewrite Hpass.
Qed.

(** X11: after the mount, "Loading..." is shown exactly when there is an
    API key and the SDK has neither loaded nor failed yet: once the
    script has settled the banner is gone whatever happened next (map
    created, map container missing, constructor throwing, any pass), in
    both variants. *)
Theorem loading_banner_only_while_loading :
  forall (p : Page),
    (forall houseEntries,
        shows_loading
          (mounted Nested.mapOptions
                   (Nested.addHousesToMap w houseEntries) p)
        = has_key p && negb (settles (sdk p)))
    /\ (forall houseEntries,
           shows_loading
             (mounted Flat.mapOptions (Flat.addHousesToMap w houseEntries) p)
           = has_key p && negb (settles (sdk p))).
Proof.
  intros p. split; intros hs; apply loading_banner; intros s.
  - apply nested_pass_keeps_message.
  - apply flat_pass_keeps_message.
Qed.

(** X12: without an API key, or when the script of the SDK fails, the
    pass is not run at all: no request is sent, no marker built, nothing
    counted or skipped, no map created; the message is "Map configuration
    error: ..." for the key and, for the script, the message of
    [onMounted], "Failed to load map: Failed to load Google Maps API.
    Please try again later.", which replaces the one [onerror] had
    set. *)
Theorem no_pass_without_sdk :
  forall (options : MapOptions) (pass : State -> State) (p : Page),
    has_key p = false \/ sdk p = ScriptFails ->
    let s := mounted options pass p in
    requests (st s) = [] /\ markers (st s) = [] /\ fitted (st s) = []
    /\ successCount (st s) = 0 /\ skippedHouses (st s) = []
    /\ mapLoaded s = false /\ googleMap (st s) = None
    /\ error (st s)
       = (if has_key p
          then "Failed to load map: Failed to load Google Maps API. Please try again later."
          else "Map configuration error: Missing API key. Please contact support.").
Proof.
  intros options pass p H s. subst s. unfold mounted, onMounted, created.
  destruct (has_key p) eqn:K; cbn [negb].
  - destruct H as [H|H]; [discriminate|]. rewrite H. now repeat split.
  - now repeat split.
Qed.

(** A pass in a component that holds the message [msg] and nothing
    else, no map either. *)
Lemma nested_pass_after_message msg hs :
  Js.truthy_str msg = true ->
  let r := Nested.addHousesToMap w hs (set_error msg setup) in
  let fresh := Nested.addHousesToMap w hs setup in
  successCount r = successCount fresh
  /\ skippedHouses r = skippedHouses fresh
  /\ Js.truthy_str (error r) = true
  /\ ((0 <? successCount r)%nat = true -> error r = msg)
  /\ googleMap r = None
  /\ fitted r = [].
Proof.
  intros Hmsg r fresh. subst r fresh.
  split; [|split; [|split; [|split; [|split]]]].
  - destruct hs as [|entry rest]; [reflexivity|].
    unfold Nested.addHousesToMap.
    destruct (finish_aggregate "No houses could be displayed on the map."
                (Nested.loop w (entry :: rest) (reset (set_error msg setup))))
      as (-> & _).
    destruct (finish_aggregate "No houses could be displayed on the map."
                (Nested.loop w (entry :: rest) (reset setup)))
      as (-> & _).
    apply (nested_loop_same_aggregate w). now split.
  - destruct hs as [|entry rest]; [reflexivity|].
    unfold Nested.addHousesToMap.
    destruct (finish_aggregate "No houses could be displayed on the map."
                (Nested.loop w (entry :: rest) (reset (set_error msg setup))))
      as (_ & -> & _).
    destruct (finish_aggregate "No houses could be displayed on the map."
                (Nested.loop w (entry :: rest) (reset setup)))
      as (_ & -> & _).
    apply (nested_loop_same_aggregate w). now split.
  - now apply nested_pass_keeps_message.
  - destruct hs as [|entry rest]; [discriminate|].
    intros Hpos. apply Nat.ltb_lt in Hpos.
    unfold Nested.addHousesToMap in Hpos |- *.
    destruct (finish_aggregate "No houses could be displayed on the map."
                (Nested.loop w (entry :: rest)
                   (reset (set_error msg setup)))) as (Hc & _).
    rewrite Hc in Hpos.
    destruct (finish_outcome "No houses could be displayed on the map."
                (Nested.loop w (entry :: rest)
                   (reset (set_error msg setup)))) as [Hfit _].
    rewrite (Hfit Hpos).
    destruct (fit_frame (Nested.loop w (entry :: rest)
                           (reset (set_error msg setup)))) as (-> & _).
    now destruct (nested_loop_frame w (entry :: rest)
                    (reset (set_error msg setup))) as [_ ->].
  - destruct hs as [|entry rest]; [reflexivity|].
    unfold Nested.addHousesToMap.
    now rewrite finish_map, nested_loop_map.
  - destruct hs as [|entry rest]; [reflexivity|].
    unfold Nested.addHousesToMap.
    rewrite finish_fitted, nested_loop_map. cbn [reset set_error googleMap].
    now destruct (nested_loop_frame w (entry :: rest)
                    (reset (set_error msg setup))) as [-> _].
Qed.

(** X13: when the SDK loads but the map cannot be created (no [#map]
    element, or the constructor throws), [initMap] only sets its message
    and the pass runs all the same, on no map: it counts and skips as it
    does in a component that has just been set up, [mapLoaded] stays
    false, no call of [fitBounds] is made, and some message is always
    shown afterwards; when a listing was placed, it is the message of
    [initMap], next to the success banner. *)
Theorem pass_runs_without_map :
  forall (p : Page) houseEntries,
    has_key p = true ->
    sdk p = AlreadyLoaded \/ sdk p = ScriptLoads ->
    mapElement p = false \/ mapConstructorThrows p = true ->
    let s :=
      mounted Nested.mapOptions (Nested.addHousesToMap w houseEntries) p in
    let fresh := Nested.addHousesToMap w houseEntries setup in
    mapLoaded s = false /\ googleMap (st s) = None
    /\ successCount (st s) = successCount fresh
    /\ skippedHouses (st s) = skippedHouses fresh
    /\ shows_error s = true
    /\ (shows_success s = true ->
        error (st s)
        = (if mapElement p
           then "Failed to initialize map. Please check API key and billing settings."
           else "Map container not found. Please check the page structure."))
    /\ fitted (st s) = [].
Proof.
  intros [k l me mt] hs K Hl Hm.
  unfold mounted, onMounted, created, initMap, shows_error, shows_success.
  cbn [sdk mapElement mapConstructorThrows] in *. rewrite K. cbn [negb].
  assert (E : match l with
              | AlreadyLoaded | ScriptLoads => True
              | _ => False
              end) by (destruct Hl as [-> | ->]; exact I).
  destruct l; try contradiction; destruct me; cbn [negb];
    try (destruct Hm as [Hm|Hm]; [discriminate|]; rewrite Hm);
    cbn [with_state with_error mapLoaded st];
    match goal with
    | |- context [set_error ?msg setup] =>
        destruct (nested_pass_after_message msg hs eq_refl)
          as (H1 & H2 & H3 & H4 & H5 & H6)
    end; now repeat split.
Qed.

Lemma finish_banners msg s :
  Js.truthy_str msg = true -> error s = "" ->
  (0 <? successCount (finish msg s))%nat
  = negb (Js.truthy_str (error (finish msg s))).
Proof.
  intros Hmsg He. unfold finish.
  destruct (0 <? successCount s)%nat eqn:Hpos.
  - destruct (fit_frame s) as (-> & -> & _). now rewrite Hpos, He.
  - unfold set_error. cbn [successCount error]. now rewrite Hpos, Hmsg.
Qed.

(** On a map and with no call made before, the end of a pass calls
    [fitBounds] with the bounds exactly when something was placed. *)
Lemma finish_fits msg s m :
  googleMap s = Some m -> fitted s = [] ->
  fitted (finish msg s)
  = if (0 <? successCount (finish msg s))%nat then [bounds (finish msg s)]
    else [].
Proof.
  intros Hm Hf. rewrite finish_fitted, Hm, Hf, finish_bounds.
  now destruct (finish_aggregate msg s) as (-> & _).
Qed.

(** X14: when the key is there, the SDK loads and the map is created,
    the component ends up with the map its variant builds (the nested
    one centred on Texas with the map type "roadmap", the flat one
    centred on the US with no map type given), no "Loading..." banner,
    and exactly one of the success banner and the error message: the
    success banner when at least one listing was placed, a message ("No
    houses provided. ..." or "No houses could be ...") otherwise; and
    [fitBounds] was called, once and with the bounds of the pass, exactly
    when the success banner shows. *)
Theorem banners_after_good_mount :
  forall (p : Page),
    has_key p = true ->
    sdk p = AlreadyLoaded \/ sdk p = ScriptLoads ->
    mapElement p = true -> mapConstructorThrows p = false ->
    (forall houseEntries,
        let s :=
          mounted Nested.mapOptions
                  (Nested.addHousesToMap w houseEntries) p in
        mapLoaded s = true /\ googleMap (st s) = Some Nested.mapOptions
        /\ option_map mapTypeId (googleMap (st s)) = Some (Some "roadmap")
        /\ shows_loading s = false
        /\ shows_success s = negb (shows_error s)
        /\ fitted (st s)
           = if shows_success s then [bounds (st s)] else [])
    /\ (forall houseEntries,
           let s :=
             mounted Flat.mapOptions (Flat.addHousesToMap w houseEntries) p in
           mapLoaded s = true /\ googleMap (st s) = Some Flat.mapOptions
           /\ option_map mapTypeId (googleMap (st s)) = Some None
           /\ shows_loading s = false
           /\ shows_success s = negb (shows_error s)
           /\ fitted (st s)
              = if shows_success s then [bounds (st s)] else []).
Proof.
  intros [k l me mt] K Hl Hme Hmt.
  cbn [sdk mapElement mapConstructorThrows] in *. subst me mt.
  assert (M : forall options pass,
             mounted options pass
                     {| apiKey := k; sdk := l; mapElement := true;
                        mapConstructorThrows := false |}
             = {| st := pass (set_map options setup); mapLoaded := true |}).
  { intros options pass. unfold mounted, onMounted, created, initMap.
    cbn [sdk mapElement mapConstructorThrows]. rewrite K.
    destruct Hl as [-> | ->]; reflexivity. }
  split; intros hs; cbn zeta; rewrite M;
    unfold shows_loading, shows_success, shows_error;
    cbn [mapLoaded st negb andb].
  - assert (G : googleMap (Nested.addHousesToMap w hs
                             (set_map Nested.mapOptions setup))
                = Some Nested.mapOptions).
    { destruct hs as [|e hs]; [reflexivity|]. unfold Nested.addHousesToMap.
      now rewrite finish_map, nested_loop_map. }
    rewrite G. repeat (split; [reflexivity|]).
    destruct hs as [|e hs]; [split; reflexivity|].
    unfold Nested.addHousesToMap. split.
    + apply finish_banners; [reflexivity|].
      now destruct (nested_loop_frame w (e :: hs)
                      (reset (set_map Nested.mapOptions setup))) as [_ ->].
    + apply (finish_fits _ _ Nested.mapOptions).
      * now rewrite nested_loop_map.
      * now destruct (nested_loop_frame w (e :: hs)
                        (reset (set_map Nested.mapOptions setup))) as [-> _].
  - assert (G : googleMap (Flat.addHousesToMap w hs
                             (set_map Flat.mapOptions setup))
                = Some Flat.mapOptions).
    { destruct hs as [|e hs]; [reflexivity|]. unfold Flat.addHousesToMap.
      now rewrite finish_map, flat_loop_map. }
    rewrite G. repeat (split; [reflexivity|]).
    destruct hs as [|e hs]; [split; reflexivity|].
    unfold Flat.addHousesToMap. split.
    + apply finish_banners; [reflexivity|].
      now rewrite flat_loop_error.
    + apply (finish_fits _ _ Flat.mapOptions).
      * now rewrite flat_loop_map.
      * now rewrite flat_loop_fitted.
Qed.

End LifecycleFacts.

Section LifecycleAt.
Import Component Lifecycle.

(** The script fails: the message of [onMounted] stays. *)
Lemma no_pass_without_sdk_witness :
  error (st (mounted Nested.mapOptions
               (Nested.addHousesToMap Samples.world_ok
                  [("h1", Samples.house_ok)])
               MoreSamples.page_script_fails))
  = "Failed to load map: Failed to load Google Maps API. Please try again later.".
Proof.
  refine (proj2 (proj2 (proj2 (proj2 (proj2 (proj2 (proj2
            (no_pass_without_sdk Nested.mapOptions
               (Nested.addHousesToMap Samples.world_ok
                  [("h1", Samples.house_ok)])
               MoreSamples.page_script_fails _)))))))).
  right. reflexivity.
Defined.

(** No [#map] element, one listing that is placed: the success banner
    next to the message of [initMap], and no call of [fitBounds]. *)
Lemma pass_runs_without_map_witness :
  let s := mounted Nested.mapOptions
             (Nested.addHousesToMap Samples.world_ok
                [("h1", Samples.house_ok)])
             MoreSamples.page_no_element in
  mapLoaded s = false /\ googleMap (st s) = None
  /\ successCount (st s) = 1 /\ fitted (st s) = [].
Proof.
  pose proof (pass_runs_without_map Samples.world_ok
                MoreSamples.page_no_element
                [("h1", Samples.house_ok)] eq_refl
                (or_intror eq_refl) (or_introl eq_refl))
    as (H1 & H2 & H3 & _ & _ & _ & H7).
  split; [exact H1|split; [exact H2|split; [exact H3|exact H7]]].
Defined.

(** A good mount with one listing that is placed, and one with a listing
    without postal code. *)
Lemma banners_after_good_mount_witness :
  (let s := mounted Nested.mapOptions
              (Nested.addHousesToMap Samples.world_ok
                 [("h1", Samples.house_ok)])
              MoreSamples.page_ok in
   fitted (st s) = [[Samples.houston]])
  /\ (let s := mounted Flat.mapOptions
                 (Flat.addHousesToMap Samples.world_ok
                    [("h1", Samples.flat_house "12 Main St")])
                 MoreSamples.page_ok in
      googleMap (st s) = Some Flat.mapOptions
      /\ option_map mapTypeId (googleMap (st s)) = Some None).
Proof.
  pose proof (banners_after_good_mount Samples.world_ok
                MoreSamples.page_ok eq_refl
                (or_intror eq_refl) eq_refl eq_refl) as [N F].
  split.
  - exact (proj2 (proj2 (proj2 (proj2 (proj2
             (N [("h1", Samples.house_ok)])))))).
  - destruct (F [("h1", Samples.flat_house "12 Main St")])
      as (_ & H2 & H3 & _).
    split; [exact H2|exact H3].
Defined.

End LifecycleAt.

(** ** The application shell *)

Section AppFacts.
Import App.

(** X15: once the fetch of the houses has settled, the shell shows the
    map exactly when the response was [ok] and its body parsed, and then
    it holds the parsed houses; in every other case it holds no house,
    and shows a message that starts with "Failed to load house data: "
    and, for a response that is not [ok], goes on with
    "Failed to fetch houses: " and the status. *)
Theorem shell_after_fetch :
  forall f : FetchOutcome,
    let a := onMounted f created in
    (shows_map a = true
     <-> exists status houses, f = Responds status true (Parsed houses))
    /\ (forall status houses,
           f = Responds status true (Parsed houses) -> houseData a = houses)
    /\ (shows_map a = false ->
        houseData a = []
        /\ exists message,
            fetchError a = "Failed to load house data: " ++ message)
    /\ (forall status body,
           f = Responds status false body ->
           fetchError a
           = "Failed to load house data: Failed to fetch houses: "
             ++ Js.nat_to_string status).
Proof.
  intros f a. subst a.
  destruct f as [m|status [|] [m|houses]]; cbn; repeat split;
    try discriminate; try congruence; eauto;
    try (intros (s' & h' & H); discriminate).
Qed.

Lemma shell_after_fetch_witness :
  fetchError (onMounted (Responds 404 false (Unparsable "")) created)
  = "Failed to load house data: Failed to fetch houses: 404".
Proof.
  exact (proj2 (proj2 (proj2
           (shell_after_fetch (Responds 404 false (Unparsable "")))))
           404 (Unparsable "") eq_refl).
Defined.

End AppFacts.

(** ** Order of the listings and white space *)

Section OrderFacts.
Import Component Resolution.

(** X16: in the nested variant the order of the listings changes the
    labels of the pins and nothing else of the outcome: two passes over
    the same listings in different orders count the same number of
    successes, and skip the same listings with the same records. *)
Theorem nested_outcome_up_to_order :
  forall (w : World) (st st2 : State) entry rest entry2 rest2,
    Permutation.Permutation (entry :: rest) (entry2 :: rest2) ->
    let one := Nested.addHousesToMap w (entry :: rest) st in
    let other := Nested.addHousesToMap w (entry2 :: rest2) st2 in
    successCount one = successCount other
    /\ Permutation.Permutation (skippedHouses one) (skippedHouses other)
    /\ Permutation.Permutation (bounds one) (bounds other).
Proof.
  intros w st st2 entry rest entry2 rest2 Hp one other. subst one other.
  unfold Nested.addHousesToMap.
  destruct (finish_aggregate "No houses could be displayed on the map."
              (Nested.loop w (entry :: rest) (reset st)))
    as (-> & -> & _).
  destruct (finish_aggregate "No houses could be displayed on the map."
              (Nested.loop w (entry2 :: rest2) (reset st2)))
    as (-> & -> & _).
  rewrite !finish_bounds.
  destruct (nested_loop_resolved w (entry :: rest) (reset st))
    as (-> & -> & ->).
  destruct (nested_loop_resolved w (entry2 :: rest2) (reset st2))
    as (-> & -> & ->).
  cbn [reset skippedHouses successCount bounds app Nat.add].
  split; [|split].
  - apply Permutation.Permutation_length.
    now apply Permutation.Permutation_flat_map.
  - now apply Permutation.Permutation_flat_map.
  - now apply Permutation.Permutation_flat_map.
Qed.

Lemma nested_outcome_up_to_order_witness :
  let one := Nested.addHousesToMap Samples.world_ok
               [("h1", Samples.house_ok); ("h2", Samples.house_no_zip)]
               setup in
  let other := Nested.addHousesToMap Samples.world_ok
                 [("h2", Samples.house_no_zip); ("h1", Samples.house_ok)]
                 setup in
  successCount one = successCount other
  /\ Permutation.Permutation (skippedHouses one) (skippedHouses other)
  /\ Permutation.Permutation (bounds one) (bounds other).
Proof.
  apply nested_outcome_up_to_order. apply Permutation.perm_swap.
Defined.

Lemma trim_start_spaces a :
  Words.all_chars Js.is_space a = true -> Js.trim_start a = "".
Proof.
  induction a as [|c a IH]; [reflexivity|]. cbn. intros H.
  apply andb_true_iff in H as [-> H]. now apply IH.
Qed.

(** X17: a flat listing whose address is non-empty but made of white
    space only passes the address check, and its lookup is sent with the
    empty string as the address. *)
Theorem blank_address_is_looked_up :
  forall (w : World) (st : State) mlsId a,
    a <> "" ->
    Words.all_chars Js.is_space a = true ->
    normalizeAddress a = ""
    /\ requests (Flat.step w st (mlsId, {| Flat.h_address := Some a |}))
       = (requests st ++ [""])%list.
Proof.
  intros w st mlsId a Ha Hs.
  assert (N : normalizeAddress a = "").
  { unfold normalizeAddress. destruct a as [|c a]; [now destruct Ha|].
    cbn [Js.truthy_str negb]. unfold Js.trim.
    now rewrite (trim_start_spaces _ Hs). }
  split; [exact N|].
  rewrite flat_step_requests; [now rewrite N|].
  destruct a; [now destruct Ha|reflexivity].
Qed.

Lemma blank_address_is_looked_up_witness :
  requests (Flat.step Samples.world_ok setup
              ("m1", {| Flat.h_address := Some "   " |}))
  = [""].
Proof.
  refine (proj2 (blank_address_is_looked_up Samples.world_ok setup "m1"
                   "   " _ eq_refl)).
  discriminate.
Defined.

End OrderFacts.

(** ** White space around an address *)

Section TrimFacts.
Import Words.

Lemma string_app_nil_r' (a : string) : a ++ "" = a.
Proof. induction a as [|x a IH]; cbn; [reflexivity|now rewrite IH]. Qed.

Lemma word_not_space c : Js.is_word c = true -> Js.is_space c = false.
Proof.
  destruct c as [[] [] [] [] [] [] [] []]; vm_compute; intros H;
    congruence.
Qed.

Lemma trim_start_head s : head_sat Js.is_space (Js.trim_start s) = false.
Proof.
  induction s as [|c s IH]; [reflexivity|]. cbn [Js.trim_start].
  destruct (Js.is_space c) eqn:E; [exact IH|]. cbn. exact E.
Qed.

Lemma trim_start_fixed s :
  head_sat Js.is_space s = false -> Js.trim_start s = s.
Proof. destruct s as [|c s]; [reflexivity|]. cbn. now intros ->. Qed.

Lemma trim_end_head s :
  head_sat Js.is_space s = false ->
  head_sat Js.is_space (Js.trim_end s) = false.
Proof.
  destruct s as [|c s]; [reflexivity|]. cbn [head_sat Js.trim_end].
  intros E. destruct (Js.trim_end s); [rewrite E|]; cbn; exact E.
Qed.

Lemma trim_end_idem s : Js.trim_end (Js.trim_end s) = Js.trim_end s.
Proof.
  induction s as [|c s IH]; [reflexivity|]. cbn [Js.trim_end].
  destruct (Js.trim_end s) as [|d t] eqn:E.
  - destruct (Js.is_space c) eqn:Hc; [reflexivity|].
    cbn. now rewrite Hc.
  - change (Js.trim_end (String c (String d t)))
      with (match Js.trim_end (String d t) with
            | EmptyString =>
                if Js.is_space c then EmptyString else Js.str1 c
            | t' => String c t'
            end).
    now rewrite IH.
Qed.

Lemma trim_idem s : Js.trim (Js.trim s) = Js.trim s.
Proof.
  unfold Js.trim.
  rewrite (trim_start_fixed (Js.trim_end (Js.trim_start s))).
  - apply trim_end_idem.
  - apply trim_end_head, trim_start_head.
Qed.

(** On every address, the empty one too, [normalizeAddress] is the table
    applied to the trimmed address. *)
Lemma normalizeAddress_trims a :
  normalizeAddress a = apply_replacements replacements (Js.trim a).
Proof. destruct a; reflexivity. Qed.

(** X18: white space around an address does not count: an address and
    its trimmed form have the same normal form, also when the trimmed
    form is empty. *)
Theorem normalizeAddress_ignores_outer_space :
  forall a, normalizeAddress (Js.trim a) = normalizeAddress a.
Proof.
  intros a. now rewrite !normalizeAddress_trims, trim_idem.
Qed.

End TrimFacts.

(** ** Normalizing twice *)

Section Retokenize.
Import Words.

Lemma tokenize_word_run w : forall r,
  all_chars Js.is_word w = true -> w <> "" ->
  starts_with_word (tokenize r) = false ->
  tokenize (w ++ r) = Word w :: tokenize r.
Proof.
  induction w as [|c w IH]; intros r Hw Hn Hr; [now destruct Hn|].
  cbn [all_chars] in Hw. apply andb_true_iff in Hw as [Hc Hw].
  cbn [append tokenize].
  destruct w as [|d w].
  - cbn [append]. destruct (tokenize r) as [|[x|g] ts]; rewrite ?Hc;
      [reflexivity|discriminate|reflexivity].
  - rewrite (IH r Hw ltac:(discriminate) Hr). now rewrite Hc.
Qed.

Lemma tokenize_gap_run g : forall r,
  all_chars non_word g = true -> g <> "" ->
  starts_with_gap (tokenize r) = false ->
  tokenize (g ++ r) = Gap g :: tokenize r.
Proof.
  induction g as [|c g IH]; intros r Hg Hn Hr; [now destruct Hn|].
  cbn [all_chars] in Hg. apply andb_true_iff in Hg as [Hc Hg].
  unfold non_word in Hc. apply negb_true_iff in Hc.
  cbn [append tokenize].
  destruct g as [|d g].
  - cbn [append]. destruct (tokenize r) as [|[x|g'] ts]; rewrite ?Hc;
      [reflexivity|reflexivity|discriminate].
  - rewrite (IH r Hg ltac:(discriminate) Hr). now rewrite Hc.
Qed.

(** A well-formed token list is the tokenization of its text. *)
Lemma tokenize_render ts : valid ts = true -> tokenize (render ts) = ts.
Proof.
  induction ts as [|[w|g] ts IH]; intros Hv; [reflexivity| |].
  - destruct (word_token_shape _ _ Hv) as (Hn & Hw & Hs & Hvts & _).
    cbn [render text].
    rewrite tokenize_word_run; rewrite ?(IH Hvts); auto.
  - destruct (gap_token_shape _ _ Hv) as (Hn & Hg & Hs & Hvts & _).
    cbn [render text].
    rewrite tokenize_gap_run; rewrite ?(IH Hvts); auto.
Qed.

End Retokenize.

Section JoinFacts.
Import Words NormalForm.
Variables (a b : string) (vt : list token).

Lemma join_unfold t ts :
  join_words a b vt (t :: ts)
  = if triple a b (t :: ts)
    then (vt ++ join_words a b vt (skipn 2 ts))%list
    else t :: join_words a b vt ts.
Proof.
  destruct t as [x|g]; [|reflexivity].
  destruct ts as [|[x'|g] [|[y|g2] rest]]; reflexivity.
Qed.

Lemma triple_shape ts :
  triple a b ts = true ->
  exists x y rest,
    ts = Word x :: Gap " " :: Word y :: rest
    /\ eq_ci_str a x = true /\ eq_ci_str b y = true.
Proof.
  destruct ts as [|[x|g] [|[x'|g'] [|[y|g2] rest]]]; try discriminate.
  cbn [triple]. intros H. apply andb_true_iff in H as [H Hy].
  apply andb_true_iff in H as [Hx Hg]. apply String.eqb_eq in Hg. subst g'.
  now exists x, y, rest.
Qed.

Hypothesis vt_valid : valid vt = true.
Hypothesis vt_starts : starts_with_word vt = true.
Hypothesis vt_ends : ends_with_word vt = true.

Lemma join_starts ts :
  starts_with_word (join_words a b vt ts) = starts_with_word ts
  /\ starts_with_gap (join_words a b vt ts) = starts_with_gap ts
  /\ lead (join_words a b vt ts) = lead ts.
Proof.
  destruct ts as [|t ts]; [now repeat split|]. rewrite join_unfold.
  destruct (triple a b (t :: ts)) eqn:T; [|now repeat split].
  destruct (triple_shape _ T) as (x & y & rest & [= -> ->] & _).
  destruct vt as [|[x'|g] vt']; try discriminate. now repeat split.
Qed.

Lemma valid_join_words : forall n ts,
  List.length ts <= n -> valid ts = true ->
  valid (join_words a b vt ts) = true.
Proof.
  induction n as [|n IH]; intros ts Hn Hv.
  { destruct ts; [reflexivity|cbn in Hn; lia]. }
  destruct ts as [|t ts]; [reflexivity|]. cbn [List.length] in Hn.
  rewrite join_unfold. destruct (triple a b (t :: ts)) eqn:T.
  - destruct (triple_shape _ T) as (x & y & rest & [= -> ->] & _).
    destruct (word_token_shape _ _ Hv) as (_ & _ & _ & Hv1 & _).
    destruct (gap_token_shape _ _ Hv1) as (_ & _ & _ & Hv2 & _).
    destruct (word_token_shape _ _ Hv2) as (_ & _ & Hs & Hv3 & _).
    cbn [skipn]. apply valid_word_app; auto.
    + apply IH; [cbn [List.length] in Hn; lia|exact Hv3].
    + destruct (join_starts rest) as (-> & _). exact Hs.
  - cbn [valid] in Hv |- *.
    apply andb_true_iff in Hv as [Hv Hvts].
    apply andb_true_iff in Hv as [Ht Hj].
    destruct (join_starts ts) as (-> & -> & _).
    rewrite Ht, Hj. cbn [andb]. apply IH; [lia|exact Hvts].
Qed.

Lemma trail_ok_app l1 l2 :
  l2 <> [] -> trail_ok (l1 ++ l2) = trail_ok l2.
Proof.
  intros Hn. induction l1 as [|t l1 IH]; [reflexivity|].
  cbn [app]. destruct (l1 ++ l2)%list as [|u l] eqn:E.
  - destruct l1; [now destruct Hn|discriminate].
  - cbn [trail_ok]. cbn [trail_ok] in IH. exact IH.
Qed.

Lemma join_nonempty ts : ts <> [] -> join_words a b vt ts <> [].
Proof.
  destruct ts as [|t ts]; [easy|]. intros _. rewrite join_unfold.
  destruct (triple a b (t :: ts)); [|discriminate].
  destruct vt; discriminate.
Qed.

Lemma trail_ok_word_end l :
  l <> [] -> ends_with_word l = true -> trail_ok l = true.
Proof.
  induction l as [|t l IH]; [easy|]. intros _.
  destruct l as [|u l].
  - cbn. destruct t; [reflexivity|discriminate].
  - cbn [ends_with_word trail_ok]. apply IH. discriminate.
Qed.

Lemma join_trail : forall n ts,
  List.length ts <= n ->
  trail_ok (join_words a b vt ts) = trail_ok ts.
Proof.
  induction n as [|n IH]; intros ts Hn.
  { destruct ts; [reflexivity|cbn in Hn; lia]. }
  destruct ts as [|t ts]; [reflexivity|]. cbn [List.length] in Hn.
  rewrite join_unfold. destruct (triple a b (t :: ts)) eqn:T.
  - destruct (triple_shape _ T) as (x & y & rest & [= -> ->] & _).
    cbn [skipn]. destruct rest as [|r rest].
    + cbn [join_words]. rewrite app_nil_r.
      rewrite trail_ok_word_end; [reflexivity| |exact vt_ends].
      destruct vt; discriminate.
    + rewrite trail_ok_app by (apply join_nonempty; discriminate).
      rewrite IH by (cbn [List.length] in Hn |- *; lia).
      reflexivity.
  - destruct ts as [|u ts]; [reflexivity|].
    assert (N : join_words a b vt (u :: ts) <> [])
      by (apply join_nonempty; discriminate).
    destruct (join_words a b vt (u :: ts)) as [|v l] eqn:E;
      [now destruct N|].
    change (trail_ok (t :: v :: l)) with (trail_ok (v :: l)).
    rewrite <- E. change (trail_ok (t :: u :: ts)) with (trail_ok (u :: ts)).
    apply IH. lia.
Qed.

End JoinFacts.

Section ExpandFacts.
Import Words NormalForm.

Ltac by_keys' w :=
  repeat match goal with
         | |- context [eq_ci_str ?k w] =>
             destruct (eq_ci_str k w) eqn:?
         end.

Lemma expand_word_shape w :
  exists w' rest,
    expand (Word w) = Word w' :: rest
    /\ ends_with_word (expand (Word w)) = true.
Proof.
  unfold expand, word_entries, replacements. cbn [firstn find fst snd].
  by_keys' w; cbn; eexists; eexists; split; reflexivity.
Qed.

Lemma expand_stable t0 : Forall (fun t => expand t = [t]) (expand t0).
Proof.
  destruct t0 as [w|g]; [|repeat constructor].
  unfold expand at 2, word_entries, replacements.
  cbn [firstn find fst snd].
  by_keys' w; cbn [tokenize snd]; repeat constructor.
  unfold expand, word_entries, replacements. cbn [firstn find fst snd].
  repeat match goal with H : eq_ci_str _ w = false |- _ => rewrite H; clear H
         end.
  reflexivity.
Qed.

Lemma expand_no_hwy t : no_word "Hwy" (expand t) = true.
Proof.
  destruct t as [w|g]; [|reflexivity].
  unfold expand, word_entries, replacements. cbn [firstn find fst snd].
  by_keys' w; try reflexivity. cbn [no_word forallb].
  match goal with H : eq_ci_str "Hwy" w = false |- _ => now rewrite H end.
Qed.

Lemma flat_map_expand_nonempty ts :
  ts <> [] -> flat_map expand ts <> [].
Proof.
  destruct ts as [|[w|g] ts]; [easy| |discriminate]. intros _.
  cbn [flat_map]. destruct (expand_word_shape w) as (w' & rest & -> & _).
  discriminate.
Qed.

Lemma expand_lead ts : lead (flat_map expand ts) = lead ts.
Proof.
  destruct ts as [|[w|g] ts]; [reflexivity| |reflexivity].
  cbn [flat_map]. now destruct (expand_word_shape w) as (w' & rest & -> & _).
Qed.

Lemma expand_trail ts : trail_ok (flat_map expand ts) = trail_ok ts.
Proof.
  induction ts as [|t ts IH]; [reflexivity|].
  cbn [flat_map]. destruct ts as [|u ts].
  - cbn [flat_map]. rewrite app_nil_r. destruct t as [w|g]; [|reflexivity].
    destruct (expand_word_shape w) as (w' & rest & E & He).
    apply trail_ok_word_end; [rewrite E; discriminate|exact He].
  - rewrite trail_ok_app by (apply flat_map_expand_nonempty; discriminate).
    exact IH.
Qed.

Lemma stable_flat_map ts :
  Forall (fun t => expand t = [t]) (flat_map expand ts).
Proof.
  induction ts as [|t ts IH]; [constructor|].
  cbn [flat_map]. apply Forall_app. split; [apply expand_stable|exact IH].
Qed.

End ExpandFacts.

Section Edges.
Import Words NormalForm.

Lemma render_lead ts :
  valid ts = true -> head_sat Js.is_space (render ts) = lead ts.
Proof.
  destruct ts as [|[w|g] ts]; intros Hv; [reflexivity| |].
  - destruct (word_token_shape _ _ Hv) as (Hn & Hw & _).
    destruct w as [|c w]; [now destruct Hn|]. cbn in Hw |- *.
    apply andb_true_iff in Hw as [Hc _]. now apply word_not_space.
  - destruct (gap_token_shape _ _ Hv) as (Hn & _).
    destruct g as [|c g]; [now destruct Hn|]. reflexivity.
Qed.

Lemma trim_end_app x y :
  y <> "" -> Js.trim_end y = y -> Js.trim_end (x ++ y) = x ++ y.
Proof.
  intros Hn Hy. induction x as [|c x IH]; [exact Hy|].
  cbn [append Js.trim_end]. rewrite IH.
  destruct (x ++ y) eqn:E; [|reflexivity].
  apply append_empty in E as [_ E]. now destruct Hn.
Qed.

Lemma trim_end_app_inv x y :
  y <> "" -> Js.trim_end (x ++ y) = x ++ y -> Js.trim_end y = y.
Proof.
  intros Hn. induction x as [|c x IH]; [easy|].
  cbn [append Js.trim_end].
  destruct (Js.trim_end (x ++ y)) as [|d t] eqn:E.
  - destruct (Js.is_space c).
    + discriminate.
    + intros [= H]. symmetry in H. apply append_empty in H as [_ H].
      now destruct Hn.
  - intros [= H]. apply IH. exact H.
Qed.

Lemma word_trim_end w :
  all_chars Js.is_word w = true -> Js.trim_end w = w.
Proof.
  induction w as [|c w IH]; [reflexivity|]. cbn [all_chars Js.trim_end].
  intros H. apply andb_true_iff in H as [Hc Hw]. rewrite (IH Hw).
  destruct w; [now rewrite (word_not_space c Hc)|reflexivity].
Qed.

Lemma token_nonempty t : token_ok t = true -> text t <> "".
Proof. destruct t as [[|c w]|[|c g]]; cbn; congruence. Qed.

Lemma render_nonempty t ts : valid (t :: ts) = true -> render (t :: ts) <> "".
Proof.
  cbn [valid render]. intros H. apply andb_true_iff in H as [H _].
  apply andb_true_iff in H as [H _]. intros E.
  apply append_empty in E as [E _]. now apply (token_nonempty t H).
Qed.

Lemma valid_tail t ts : valid (t :: ts) = true -> valid ts = true.
Proof. cbn [valid]. intros H. now apply andb_true_iff in H as [_ H]. Qed.

Lemma render_trail ts :
  valid ts = true ->
  (Js.trim_end (render ts) = render ts <-> trail_ok ts = true).
Proof.
  induction ts as [|t ts IH]; intros Hv; [now split|].
  destruct ts as [|u ts].
  - cbn [render trail_ok]. rewrite string_app_nil_r'.
    destruct t as [w|g]; cbn [text token_trail_ok].
    + destruct (word_token_shape _ _ Hv) as (_ & Hw & _).
      split; [reflexivity|]. intros _. now apply word_trim_end.
    + now rewrite String.eqb_eq.
  - pose proof (valid_tail _ _ Hv) as Hv'.
    change (trail_ok (t :: u :: ts)) with (trail_ok (u :: ts)).
    rewrite <- (IH Hv'). change (render (t :: u :: ts))
      with (text t ++ render (u :: ts)).
    split.
    + apply trim_end_app_inv. now apply render_nonempty.
    + apply trim_end_app. now apply render_nonempty.
Qed.

End Edges.

Section Idempotence.
Import Words NormalForm.

Lemma expand_over_join a b vt : forall n ts,
  List.length ts <= n ->
  Forall (fun t => expand t = [t]) ts ->
  flat_map expand (join_words a b vt ts)
  = join_words a b (flat_map expand vt) ts.
Proof.
  induction n as [|n IH]; intros ts Hn Hs.
  { destruct ts; [reflexivity|cbn in Hn; lia]. }
  destruct ts as [|t ts]; [reflexivity|]. cbn [List.length] in Hn.
  rewrite !join_unfold. destruct (triple a b (t :: ts)) eqn:T.
  - destruct (triple_shape _ _ _ T) as (x & y & rest & [= -> ->] & _).
    cbn [skipn]. rewrite flat_map_app. f_equal.
    apply IH; [cbn [List.length] in Hn; lia|].
    inversion Hs as [|? ? _ H1]; subst.
    inversion H1 as [|? ? _ H2]; subst.
    now inversion H2.
  - cbn [flat_map]. inversion Hs as [|? ? Ht Hts]; subst.
    rewrite Ht. cbn [app]. f_equal. apply IH; [lia|exact Hts].
Qed.

Lemma us_not_highway y :
  eq_ci_str "Us" y = true -> eq_ci_str "Highway" y = false.
Proof.
  intros H. destruct (eq_ci_str "Highway" y) eqn:E; [|reflexivity].
  apply eq_ci_str_length in H. apply eq_ci_str_length in E.
  rewrite H in E. discriminate.
Qed.

(** "US Highway" is what the expansion makes of the value "US Hwy". *)
Lemma us_highway_tokens :
  tokenize "US Highway" = [Word "US"; Gap " "; Word "Highway"].
Proof. reflexivity. Qed.

Lemma triple_through t ts :
  triple "Us" "Highway" (t :: join_words "Us" "Highway"
                                 (tokenize "US Highway") ts)
  = triple "Us" "Highway" (t :: ts).
Proof.
  destruct t as [x|g]; [|reflexivity].
  destruct ts as [|u ts]; [reflexivity|]. rewrite join_unfold.
  destruct (triple "Us" "Highway" (u :: ts)) eqn:T.
  - destruct (triple_shape _ _ _ T) as (x' & y & rest & [= -> ->] & _).
    reflexivity.
  - destruct u as [x'|g]; [reflexivity|].
    destruct ts as [|v ts]; [reflexivity|]. rewrite join_unfold.
    destruct (triple "Us" "Highway" (v :: ts)) eqn:T'; [|reflexivity].
    destruct (triple_shape _ _ _ T') as (y & y' & rest & [= -> ->] & Hy & _).
    rewrite us_highway_tokens. cbn [app triple skipn].
    rewrite (us_not_highway y Hy).
    change (eq_ci_str "Highway" "US") with false.
    now rewrite !andb_false_r.
Qed.

Lemma rejoin : forall n ts,
  List.length ts <= n ->
  us_highway (join_words "Us" "Highway" (tokenize "US Highway") ts)
  = us_highway ts.
Proof.
  unfold us_highway. induction n as [|n IH]; intros ts Hn.
  { destruct ts; [reflexivity|cbn in Hn; lia]. }
  destruct ts as [|t ts]; [reflexivity|]. cbn [List.length] in Hn.
  rewrite (join_unfold "Us" "Highway" (tokenize "US Highway") t ts).
  rewrite (join_unfold "Us" "Highway" (tokenize "US Hwy") t ts).
  destruct (triple "Us" "Highway" (t :: ts)) eqn:T.
  - destruct (triple_shape _ _ _ T) as (x & y & rest & [= -> ->] & _).
    cbn [skipn]. rewrite us_highway_tokens at 1. cbn [app].
    rewrite join_unfold.
    change (triple "Us" "Highway" (Word "US" :: Gap " " :: Word "Highway" :: ?l))
      with true.
    cbn [skipn]. f_equal. apply IH. cbn [List.length] in Hn. lia.
  - rewrite join_unfold, triple_through, T. f_equal. apply IH. lia.
Qed.

(** The normal form of an address without [#], as tokens. *)
Lemma normal_form_tokens a :
  hash_free a = true ->
  let t1 := flat_map expand (tokenize (Js.trim a)) in
  normalizeAddress a = render (us_highway t1)
  /\ valid (us_highway t1) = true
  /\ clean (us_highway t1) = true
  /\ lead (us_highway t1) = false
  /\ trail_ok (us_highway t1) = true.
Proof.
  intros Hh t1.
  set (t0 := tokenize (Js.trim a)) in *.
  assert (Hv0 : valid t0 = true) by apply valid_tokenize.
  assert (Hr0 : render t0 = Js.trim a) by apply render_tokenize.
  assert (Hc0 : clean t0 = true).
  { rewrite <- hash_free_render, Hr0. now apply hash_free_trim. }
  assert (Hv1 : valid t1 = true).
  { pose proof (apply_word_entries word_entries t0 word_entries_ok Hv0)
      as [_ H]. now rewrite expand_passes_expand in H. }
  assert (Hc1 : clean t1 = true)
    by (apply clean_flat_map; [exact expand_clean|exact Hc0]).
  assert (Hc2 : clean (us_highway t1) = true)
    by (apply (clean_join_words "Us" "Highway" (tokenize "US Hwy") eq_refl
                 (List.length t1) t1 (le_n _) Hc1)).
  split; [|split; [|split; [exact Hc2|split]]].
  - rewrite normalizeAddress_before_hash. unfold Js.replace_word.
    rewrite scan_hash. unfold expand_words. fold t0. fold t1.
    apply strip_hash_absent. now rewrite hash_free_render.
  - apply (valid_join_words "Us" "Highway" (tokenize "US Hwy")
             eq_refl eq_refl eq_refl (List.length t1) t1 (le_n _) Hv1).
  - unfold us_highway.
    destruct (join_starts "Us" "Highway" (tokenize "US Hwy")
                eq_refl eq_refl eq_refl t1) as (_ & _ & ->).
    unfold t1. rewrite expand_lead, <- (render_lead t0 Hv0), Hr0.
    unfold Js.trim. apply trim_end_head, trim_start_head.
  - unfold us_highway.
    rewrite (join_trail "Us" "Highway" (tokenize "US Hwy")
               eq_refl eq_refl eq_refl (List.length t1) t1 (le_n _)).
    unfold t1. rewrite expand_trail.
    apply (render_trail t0 Hv0). rewrite Hr0. unfold Js.trim.
    apply trim_end_idem.
Qed.

(** X19: on an address without [#], normalizing twice is normalizing
    once. *)
Theorem normalizeAddress_twice :
  forall a,
    hash_free a = true ->
    normalizeAddress (normalizeAddress a) = normalizeAddress a.
Proof.
  intros a Hh.
  destruct (normal_form_tokens a Hh) as (E & Hv & Hc & Hl & Ht).
  set (t1 := flat_map expand (tokenize (Js.trim a))) in *.
  set (t2 := us_highway t1) in *.
  rewrite E.
  assert (Hf : hash_free (render t2) = true) by now rewrite hash_free_render.
  assert (Htrim : Js.trim (render t2) = render t2).
  { unfold Js.trim. rewrite trim_start_fixed.
    - now apply (render_trail t2 Hv).
    - now rewrite (render_lead t2 Hv). }
  rewrite normalizeAddress_before_hash. unfold Js.replace_word.
  rewrite scan_hash. unfold expand_words.
  rewrite Htrim, (tokenize_render t2 Hv).
  assert (E2 : us_highway (flat_map expand t2) = t2).
  { unfold t2 at 1. unfold us_highway at 2.
    rewrite (expand_over_join "Us" "Highway" (tokenize "US Hwy")
               (List.length t1) t1 (le_n _) (stable_flat_map _)).
    change (flat_map expand (tokenize "US Hwy"))
      with (tokenize "US Highway").
    apply (rejoin (List.length t1) t1 (le_n _)). }
  rewrite E2. now apply strip_hash_absent.
Qed.

Lemma normalizeAddress_twice_witness :
  normalizeAddress (normalizeAddress " 12 us hwy 290, CR 5 ")
  = normalizeAddress " 12 us hwy 290, CR 5 ".
Proof.
  apply normalizeAddress_twice. vm_compute. reflexivity.
Defined.

(** With a [#] it need not be: "R#d" gives "Rd", and "Rd" gives "Road". *)
Example normalizeAddress_twice_needs_no_hash :
  normalizeAddress "R#d" = "Rd" /\ normalizeAddress "Rd" = "Road".
Proof. vm_compute. split; reflexivity. Qed.

End Idempotence.
